(** * Verification of the WebApp init-data check of the Telegram bot

    The development embeds [validate_init_data] of [bot.py] together with the
    Python standard-library functions it calls ([urllib.parse.parse_qsl],
    [dict], [sorted], [str.join], [str.encode], [hmac.new], [hashlib.sha256],
    [hmac.compare_digest]) and proves the properties of the verifier.

    Data representation:
    - a Python [str] is the list of its code points, each a [Z];
    - a Python [bytes] object is the list of its bytes, each a [Z] in 0..255;
    - a [dict] is an association list in insertion order;
    - a 32-bit word of SHA-256 is a [Z] with the wrap-around written out. *)

From Stdlib Require Import String Ascii.
From Stdlib Require Import ZArith List Bool Lia.
From Stdlib Require Import Permutation Sorted.
Import ListNotations.
Local Open Scope Z_scope.

(** ** Python values *)

Definition str := list Z.
Definition bytes := list Z.

(** An ASCII literal of the source, as a [str] (or as a [bytes] literal). *)
Definition lit (s : string) : list Z :=
  map (fun c => Z.of_nat (nat_of_ascii c)) (list_ascii_of_string s).

Fixpoint str_eqb (a b : str) : bool :=
  match a, b with
  | [], [] => true
  | x :: a', y :: b' => (x =? y) && str_eqb a' b'
  | _, _ => false
  end.

(** [a < b] on [str]: lexicographic on code points. *)
Fixpoint str_ltb (a b : str) : bool :=
  match a, b with
  | _, [] => false
  | [], _ :: _ => true
  | x :: a', y :: b' => if x =? y then str_ltb a' b' else x <? y
  end.

(** ** SHA-256 (FIPS 180-4), as computed by [hashlib.sha256] *)

Module SHA256.

Definition mask32 : Z := 0xFFFFFFFF.
Definition add32 (x y : Z) : Z := (x + y) mod 2 ^ 32.
Definition shl32 (x n : Z) : Z := Z.land (Z.shiftl x n) mask32.
Definition not32 (x : Z) : Z := Z.lxor x mask32.
Definition ROTR (n x : Z) : Z := Z.lor (Z.shiftr x n) (shl32 x (32 - n)).
Definition SHR (n x : Z) : Z := Z.shiftr x n.

Definition Ch (x y z : Z) : Z := Z.lxor (Z.land x y) (Z.land (not32 x) z).
Definition Maj (x y z : Z) : Z :=
  Z.lxor (Z.lxor (Z.land x y) (Z.land x z)) (Z.land y z).
Definition Sigma0 (x : Z) : Z := Z.lxor (Z.lxor (ROTR 2 x) (ROTR 13 x)) (ROTR 22 x).
Definition Sigma1 (x : Z) : Z := Z.lxor (Z.lxor (ROTR 6 x) (ROTR 11 x)) (ROTR 25 x).
Definition sigma0 (x : Z) : Z := Z.lxor (Z.lxor (ROTR 7 x) (ROTR 18 x)) (SHR 3 x).
Definition sigma1 (x : Z) : Z := Z.lxor (Z.lxor (ROTR 17 x) (ROTR 19 x)) (SHR 10 x).

Definition K : list Z :=
  [ 0x428A2F98; 0x71374491; 0xB5C0FBCF; 0xE9B5DBA5;
    0x3956C25B; 0x59F111F1; 0x923F82A4; 0xAB1C5ED5;
    0xD807AA98; 0x12835B01; 0x243185BE; 0x550C7DC3;
    0x72BE5D74; 0x80DEB1FE; 0x9BDC06A7; 0xC19BF174;
    0xE49B69C1; 0xEFBE4786; 0x0FC19DC6; 0x240CA1CC;
    0x2DE92C6F; 0x4A7484AA; 0x5CB0A9DC; 0x76F988DA;
    0x983E5152; 0xA831C66D; 0xB00327C8; 0xBF597FC7;
    0xC6E00BF3; 0xD5A79147; 0x06CA6351; 0x14292967;
    0x27B70A85; 0x2E1B2138; 0x4D2C6DFC; 0x53380D13;
    0x650A7354; 0x766A0ABB; 0x81C2C92E; 0x92722C85;
    0xA2BFE8A1; 0xA81A664B; 0xC24B8B70; 0xC76C51A3;
    0xD192E819; 0xD6990624; 0xF40E3585; 0x106AA070;
    0x19A4C116; 0x1E376C08; 0x2748774C; 0x34B0BCB5;
    0x391C0CB3; 0x4ED8AA4A; 0x5B9CCA4F; 0x682E6FF3;
    0x748F82EE; 0x78A5636F; 0x84C87814; 0x8CC70208;
    0x90BEFFFA; 0xA4506CEB; 0xBEF9A3F7; 0xC67178F2 ].

(** The eight working variables, also the shape of a hash value. *)
Record state := State {
  sa : Z; sb : Z; sc : Z; sd : Z; se : Z; sf : Z; sg : Z; sh : Z }.

Definition H0 : state :=
  State 0x6A09E667 0xBB67AE85 0x3C6EF372 0xA54FF53A
        0x510E527F 0x9B05688C 0x1F83D9AB 0x5BE0CD19.

(** Padding: a 1 bit, zero bits up to 56 mod 64 bytes, the bit length on
    64 bits, big-endian. *)
Definition be_bytes (n : nat) (x : Z) : bytes :=
  map (fun i => Z.land (Z.shiftr x (8 * Z.of_nat i)) 0xFF) (rev (seq 0 n)).

Definition pad (msg : bytes) : bytes :=
  let l := Z.of_nat (length msg) in
  msg ++ [0x80] ++ repeat 0 (Z.to_nat ((55 - l) mod 64)) ++ be_bytes 8 (8 * l).

Fixpoint blocks (n : nat) (l : bytes) : list bytes :=
  match n with
  | O => []
  | S n' => firstn 64 l :: blocks n' (skipn 64 l)
  end.

Definition be_word (b : bytes) : Z :=
  fold_left (fun acc x => Z.lor (Z.shiftl acc 8) x) b 0.

Fixpoint words (n : nat) (l : bytes) : list Z :=
  match n with
  | O => []
  | S n' => be_word (firstn 4 l) :: words n' (skipn 4 l)
  end.

(** The message schedule, most recent word first: the head of [r] is
    W(t-1). *)
Fixpoint schedule_rev (n : nat) (r : list Z) : list Z :=
  match n with
  | O => r
  | S n' =>
      let wt := add32 (add32 (add32 (sigma1 (nth 1 r 0)) (nth 6 r 0))
                             (sigma0 (nth 14 r 0))) (nth 15 r 0) in
      schedule_rev n' (wt :: r)
  end.

Definition schedule (block : bytes) : list Z :=
  rev (schedule_rev 48 (rev (words 16 block))).

Definition round (s : state) (kw : Z * Z) : state :=
  let '(k, w) := kw in
  let T1 := add32 (add32 (add32 (add32 (sh s) (Sigma1 (se s)))
                                (Ch (se s) (sf s) (sg s))) k) w in
  let T2 := add32 (Sigma0 (sa s)) (Maj (sa s) (sb s) (sc s)) in
  State (add32 T1 T2) (sa s) (sb s) (sc s) (add32 (sd s) T1) (se s) (sf s) (sg s).

Definition compress (h : state) (block : bytes) : state :=
  let s := fold_left round (combine K (schedule block)) h in
  State (add32 (sa h) (sa s)) (add32 (sb h) (sb s))
        (add32 (sc h) (sc s)) (add32 (sd h) (sd s))
        (add32 (se h) (se s)) (add32 (sf h) (sf s))
        (add32 (sg h) (sg s)) (add32 (sh h) (sh s)).

Definition state_bytes (h : state) : bytes :=
  flat_map (be_bytes 4) [sa h; sb h; sc h; sd h; se h; sf h; sg h; sh h].

(** [hashlib.sha256(msg).digest()] *)
Definition digest (msg : bytes) : bytes :=
  let p := pad msg in
  state_bytes (fold_left compress (blocks (length p / 64) p) H0).

End SHA256.

(** ** HMAC (RFC 2104), as computed by [hmac.new(key, msg, hashlib.sha256)] *)

Module HMAC.

Definition blocksize : nat := 64.

Definition ljust (n : nat) (fill : Z) (b : bytes) : bytes :=
  b ++ repeat fill (n - length b).

(** [bytes.translate] with the tables [trans_36] and [trans_5C] of the
    module: every byte xor-ed with the constant. *)
Definition translate (c : Z) (b : bytes) : bytes := map (fun x => Z.lxor x c) b.

Definition digest (key msg : bytes) : bytes :=
  let key := if (blocksize <? length key)%nat then SHA256.digest key else key in
  let key := ljust blocksize 0 key in
  let inner := SHA256.digest (translate 0x36 key ++ msg) in
  SHA256.digest (translate 0x5C key ++ inner).

Definition hexdigits : list Z := lit "0123456789abcdef".

(** [bytes.hex()]: two lowercase hexadecimal digits per byte. *)
Definition hex (b : bytes) : str :=
  flat_map (fun x => [nth (Z.to_nat (x / 16)) hexdigits 0;
                      nth (Z.to_nat (x mod 16)) hexdigits 0]) b.

Definition hexdigest (key msg : bytes) : str := hex (digest key msg).

End HMAC.

(** ** Exceptions and results *)

(** The exception classes that matter here.  [KeyboardInterrupt] and
    [SystemExit] derive from [BaseException] only, the others from
    [Exception]. *)
Inductive exn : Type :=
| KeyError
| TypeError
| ValueError
| UnicodeEncodeError
| KeyboardInterrupt
| SystemExit.

Definition is_Exception (e : exn) : bool :=
  match e with
  | KeyboardInterrupt | SystemExit => false
  | _ => true
  end.

(** The outcome of running a piece of Python: a value or a raised
    exception. *)
Inductive result (A : Type) : Type :=
| Return (a : A)
| Raise (e : exn).
Arguments Return {A} a.
Arguments Raise {A} e.

Definition bind {A B : Type} (m : result A) (f : A -> result B) : result B :=
  match m with
  | Return a => f a
  | Raise e => Raise e
  end.

Notation "x <- m ;; k" := (bind m (fun x => k))
  (at level 61, m at next level, right associativity).
Notation "' p <- m ;; k" := (bind m (fun x => let 'p := x in k))
  (at level 61, p pattern, m at next level, right associativity).

(** ** UTF-8 *)

Module UTF8.

(** One code point of [str.encode()] (UTF-8, errors='strict').  Surrogates
    cannot be encoded; values that are no code point at all (negative or
    above 0x10FFFF) never occur in a Python [str] and are refused too. *)
Definition encode_char (c : Z) : option bytes :=
  if c <? 0 then None
  else if c <? 0x80 then Some [c]
  else if c <? 0x800 then
    Some [Z.lor 0xC0 (Z.shiftr c 6); Z.lor 0x80 (Z.land c 0x3F)]
  else if c <? 0x10000 then
    if (0xD800 <=? c) && (c <=? 0xDFFF) then None
    else Some [Z.lor 0xE0 (Z.shiftr c 12);
               Z.lor 0x80 (Z.land (Z.shiftr c 6) 0x3F);
               Z.lor 0x80 (Z.land c 0x3F)]
  else if c <? 0x110000 then
    Some [Z.lor 0xF0 (Z.shiftr c 18);
          Z.lor 0x80 (Z.land (Z.shiftr c 12) 0x3F);
          Z.lor 0x80 (Z.land (Z.shiftr c 6) 0x3F);
          Z.lor 0x80 (Z.land c 0x3F)]
  else None.

Fixpoint encode_opt (s : str) : option bytes :=
  match s with
  | [] => Some []
  | c :: s' =>
      match encode_char c, encode_opt s' with
      | Some b, Some r => Some (b ++ r)
      | _, _ => None
      end
  end.

(** [s.encode()] *)
Definition encode (s : str) : result bytes :=
  match encode_opt s with
  | Some b => Return b
  | None => Raise UnicodeEncodeError
  end.

Definition replacement : Z := 0xFFFD.

Definition is_continuation (b : Z) : bool := (0x80 <=? b) && (b <=? 0xBF).

(** [b.decode('utf-8', 'replace')], following CPython's decoder: an invalid
    start byte, and the bytes of a sequence up to the first byte that cannot
    continue it, are replaced by one U+FFFD; so is a sequence cut short by
    the end of the input. *)
Fixpoint decode_replace (b : bytes) : str :=
  match b with
  | [] => []
  | ch :: r1 =>
    if ch <? 0x80 then ch :: decode_replace r1
    else if ch <? 0xC2 then replacement :: decode_replace r1
    else if ch <? 0xE0 then
      match r1 with
      | [] => [replacement]
      | ch2 :: r2 =>
        if negb (is_continuation ch2) then replacement :: decode_replace r1
        else Z.lor (Z.shiftl (Z.land ch 0x1F) 6) (Z.land ch2 0x3F)
             :: decode_replace r2
      end
    else if ch <? 0xF0 then
      match r1 with
      | [] => [replacement]
      | ch2 :: r2 =>
        if negb (is_continuation ch2)
           || (if ch2 <? 0xA0 then ch =? 0xE0 else ch =? 0xED)
        then replacement :: decode_replace r1
        else
          match r2 with
          | [] => [replacement]
          | ch3 :: r3 =>
            if negb (is_continuation ch3) then replacement :: decode_replace r2
            else Z.lor (Z.lor (Z.shiftl (Z.land ch 0x0F) 12)
                              (Z.shiftl (Z.land ch2 0x3F) 6))
                       (Z.land ch3 0x3F)
                 :: decode_replace r3
          end
      end
    else if ch <? 0xF5 then
      match r1 with
      | [] => [replacement]
      | ch2 :: r2 =>
        if negb (is_continuation ch2)
           || (if ch2 <? 0x90 then ch =? 0xF0 else ch =? 0xF4)
        then replacement :: decode_replace r1
        else
          match r2 with
          | [] => [replacement]
          | ch3 :: r3 =>
            if negb (is_continuation ch3) then replacement :: decode_replace r2
            else
              match r3 with
              | [] => [replacement]
              | ch4 :: r4 =>
                if negb (is_continuation ch4)
                then replacement :: decode_replace r3
                else Z.lor (Z.lor (Z.lor (Z.shiftl (Z.land ch 0x07) 18)
                                         (Z.shiftl (Z.land ch2 0x3F) 12))
                                  (Z.shiftl (Z.land ch3 0x3F) 6))
                           (Z.land ch4 0x3F)
                     :: decode_replace r4
              end
          end
      end
    else replacement :: decode_replace r1
  end.

End UTF8.

(** ** [str] and [list] methods *)

(** [s.split(sep)] for a one-character separator. *)
Fixpoint split (sep : Z) (s : list Z) : list (list Z) :=
  match s with
  | [] => [[]]
  | c :: s' =>
      if c =? sep then [] :: split sep s'
      else match split sep s' with
           | x :: xs => (c :: x) :: xs
           | [] => [[c]]
           end
  end.

(** [s.split(sep, 1)]: cut at the first separator only. *)
Fixpoint split1 (sep : Z) (s : list Z) : list (list Z) :=
  match s with
  | [] => [[]]
  | c :: s' =>
      if c =? sep then [[]; s']
      else match split1 sep s' with
           | x :: xs => (c :: x) :: xs
           | [] => [[c]]
           end
  end.

(** [s.replace(old, new)] for one-character [old] and [new]. *)
Definition replace (old new : Z) (s : str) : str :=
  map (fun c => if c =? old then new else c) s.

(** [sep.join(l)] *)
Fixpoint join (sep : str) (l : list str) : str :=
  match l with
  | [] => []
  | [x] => x
  | x :: l' => x ++ sep ++ join sep l'
  end.

(** [x in s] for a character [x]. *)
Definition contains (x : Z) (s : str) : bool := existsb (Z.eqb x) s.

(** ** [urllib.parse] *)

Module UrlParse.

Definition amp : Z := 38.      (* & *)
Definition equals : Z := 61.   (* = *)
Definition plus : Z := 43.     (* + *)
Definition space : Z := 32.
Definition percent : Z := 37.  (* % *)

(** Value of a character of [_hexdig = '0123456789ABCDEFabcdef']. *)
Definition hexval (c : Z) : option Z :=
  if (48 <=? c) && (c <=? 57) then Some (c - 48)
  else if (65 <=? c) && (c <=? 70) then Some (c - 55)
  else if (97 <=? c) && (c <=? 102) then Some (c - 87)
  else None.

(** [_hextobyte[item[:2]]]; [None] stands for the [KeyError] that
    [unquote_to_bytes] catches. *)
Definition hextobyte (item : bytes) : option Z :=
  match item with
  | a :: b :: _ =>
      match hexval a, hexval b with
      | Some x, Some y => Some (16 * x + y)
      | _, _ => None
      end
  | _ => None
  end.

(** [unquote_to_bytes(string)] on a [str] of ASCII characters, whose UTF-8
    encoding is the list of its code points. *)
Definition unquote_to_bytes (string : str) : bytes :=
  match string with
  | [] => []
  | _ =>
      match split percent string with
      | bits0 :: (_ :: _) as rest =>
          bits0 ++ flat_map (fun item =>
                      match hextobyte item with
                      | Some x => x :: skipn 2 item
                      | None => percent :: item
                      end) rest
      | _ => string
      end
  end.

Definition is_ascii (c : Z) : bool := (0 <=? c) && (c <=? 0x7F).

(** [_asciire.split(string)] with [_asciire = re.compile('([\x00-\x7f]+)')]:
    the maximal runs of ASCII and of non-ASCII characters, each tagged with
    whether it is an ASCII run. *)
Fixpoint asciire_split (s : str) : list (bool * str) :=
  match s with
  | [] => []
  | c :: s' =>
      match asciire_split s' with
      | (b, r) :: rest =>
          if Bool.eqb (is_ascii c) b then (b, c :: r) :: rest
          else (is_ascii c, [c]) :: (b, r) :: rest
      | [] => [(is_ascii c, [c])]
      end
  end.

(** [unquote(string)] with the defaults [encoding='utf-8'],
    [errors='replace']. *)
Definition unquote (string : str) : str :=
  if negb (contains percent string) then string
  else flat_map (fun '(ascii, bit) =>
                   if ascii : bool
                   then UTF8.decode_replace (unquote_to_bytes bit)
                   else bit)
                (asciire_split string).

(** The body of the loop of [parse_qsl] for one [name_value], as the list
    of pairs it appends to [r] (none or one), with [keep_blank_values] and
    [strict_parsing] both false. *)
Definition parse_field (name_value : str) : list (str * str) :=
  match name_value with
  | [] => []
  | _ =>
      match split1 equals name_value with
      | [name; value] =>
          match value with
          | [] => []
          | _ => [(unquote (replace plus space name),
                   unquote (replace plus space value))]
          end
      | _ => []
      end
  end.

(** [parse_qsl(qs)] with all defaults. *)
Definition parse_qsl (qs : str) : list (str * str) :=
  let query_args := match qs with [] => [] | _ => split amp qs end in
  flat_map parse_field query_args.

End UrlParse.

(** ** [dict] with [str] keys and values, in insertion order *)

Definition dict := list (str * str).

(** [d[k] = v]: an existing key keeps its place. *)
Fixpoint dict_setitem (d : dict) (k v : str) : dict :=
  match d with
  | [] => [(k, v)]
  | (k', v') :: d' =>
      if str_eqb k' k then (k', v) :: d'
      else (k', v') :: dict_setitem d' k v
  end.

(** [dict(pairs)]: the pairs are set one after the other. *)
Definition setitem_pair (d : dict) (kv : str * str) : dict :=
  dict_setitem d (fst kv) (snd kv).

Definition dict_of_pairs (pairs : list (str * str)) : dict :=
  fold_left setitem_pair pairs [].

(** [k in d] *)
Definition dict_contains (k : str) (d : dict) : bool :=
  existsb (fun kv => str_eqb (fst kv) k) d.

(** [d.pop(k)]: the value and the dictionary without the key. *)
Fixpoint dict_pop (d : dict) (k : str) : result (str * dict) :=
  match d with
  | [] => Raise KeyError
  | (k', v') :: d' =>
      if str_eqb k' k then Return (v', d')
      else '(v, d'') <- dict_pop d' k ;; Return (v, (k', v') :: d'')
  end.

(** The keys of the pairs, in their order. *)
Definition keys (l : list (str * str)) : list str := map fst l.

(** [d.items()] *)
Definition dict_items (d : dict) : list (str * str) := d.

(** ** [sorted] on a list of pairs of [str] *)

(** [a < b] on tuples: the first components that differ decide. *)
Definition tuple_ltb (a b : str * str) : bool :=
  if str_eqb (fst a) (fst b) then str_ltb (snd a) (snd b)
  else str_ltb (fst a) (fst b).

(** Insertion into a sorted list, behind the elements below [x] and in
    front of the others: the step of a stable sort that compares with [<]
    only, when the elements are taken from the right. *)
Fixpoint insert_by {A : Type} (ltb : A -> A -> bool) (x : A) (l : list A) : list A :=
  match l with
  | [] => [x]
  | y :: l' => if ltb y x then y :: insert_by ltb x l' else x :: y :: l'
  end.

Definition sort_by {A : Type} (ltb : A -> A -> bool) (l : list A) : list A :=
  fold_right (insert_by ltb) [] l.

(** [a] may stand in front of [b] in a list sorted with [ltb]. *)
Definition le_of {A : Type} (ltb : A -> A -> bool) (a b : A) : Prop :=
  ltb b a = false.

(** [sorted(l)] *)
Definition sorted (l : list (str * str)) : list (str * str) :=
  sort_by tuple_ltb l.

(** ** [hmac.compare_digest] on two [str] *)

(** The comparison loop of CPython's [_tscmp]: the differences of all
    positions are or-ed together, there is no early exit. *)
Definition tscmp (a b : list Z) : bool :=
  let same_length := (length a =? length b)%nat in
  let left_ := if same_length then a else b in
  let result := if same_length then 0 else 1 in
  fold_left (fun r xy => Z.lor r (Z.lxor (fst xy) (snd xy)))
            (combine left_ b) result =? 0.

Definition compare_digest (a b : str) : result bool :=
  if forallb UrlParse.is_ascii a && forallb UrlParse.is_ascii b
  then Return (tscmp a b)
  else Raise TypeError.

(** ** The verifier of [bot.py] *)

Definition newline : str := [10].

(** [f"{k}={v}"] *)
Definition format_pair (kv : str * str) : str :=
  fst kv ++ lit "=" ++ snd kv.

(** The expression bound to [data_check_string], of the dictionary left
    after the [pop]. *)
Definition data_check_string (parsed_data : dict) : str :=
  join newline (map format_pair (sorted (dict_items parsed_data))).

(** The expression bound to [secret_key], of [bot_token.encode()]. *)
Definition secret_key (token_bytes : bytes) : bytes :=
  HMAC.digest (lit "WebAppData") token_bytes.

(** The expression bound to [calculated_hash], of the secret key and of
    [data_check_string.encode()]. *)
Definition calculated_hash (secret_key check_bytes : bytes) : str :=
  HMAC.hexdigest secret_key check_bytes.

(** The [try] block of [validate_init_data]. *)
Definition validate_init_data_try (init_data bot_token : str) : result bool :=
  let parsed_data := dict_of_pairs (UrlParse.parse_qsl init_data) in
  if negb (dict_contains (lit "hash") parsed_data) then Return false
  else
    '(received_hash, parsed_data) <- dict_pop parsed_data (lit "hash") ;;
    let data_check_string := data_check_string parsed_data in
    token_bytes <- UTF8.encode bot_token ;;
    let secret_key := secret_key token_bytes in
    check_bytes <- UTF8.encode data_check_string ;;
    let calculated_hash := calculated_hash secret_key check_bytes in
    compare_digest received_hash calculated_hash.

(** What [logger.error] receives in the handler. *)
Inductive log_record : Type :=
| ValidationError (e : exn).

(** [validate_init_data] with its effect: the records logged, and the
    outcome.  [except Exception] catches the subclasses of [Exception]
    only. *)
Definition validate_init_data_run (init_data bot_token : str)
  : list log_record * result bool :=
  match validate_init_data_try init_data bot_token with
  | Return b => ([], Return b)
  | Raise e =>
      if is_Exception e then ([ValidationError e], Return false)
      else ([], Raise e)
  end.

Definition validate_init_data (init_data bot_token : str) : result bool :=
  snd (validate_init_data_run init_data bot_token).

(** ** The verifier as the specification words it (section 4.1) *)

Module Spec.

Definition hash_key : str := lit "hash".

Definition has_key (k : str) (pairs : list (str * str)) : bool :=
  existsb (fun kv => str_eqb (fst kv) k) pairs.

(** The pairs with all but the last occurrence of each key removed. *)
Fixpoint keep_last (pairs : list (str * str)) : list (str * str) :=
  match pairs with
  | [] => []
  | kv :: rest =>
      if has_key (fst kv) rest then keep_last rest else kv :: keep_last rest
  end.

(** Step 1: the payload as an ordered set of percent-decoded pairs; of the
    pairs with one key the last one stands for the key. *)
Definition fields (payload : str) : list (str * str) :=
  keep_last (UrlParse.parse_qsl payload).

Definition lookup (k : str) (pairs : list (str * str)) : option str :=
  match find (fun kv => str_eqb (fst kv) k) pairs with
  | Some kv => Some (snd kv)
  | None => None
  end.

(** Step 2: the pair whose key is [hash], and the remaining pairs. *)
Definition hash_field (payload : str) : option str :=
  lookup hash_key (fields payload).

Definition without_hash (pairs : list (str * str)) : list (str * str) :=
  filter (fun kv => negb (str_eqb (fst kv) hash_key)) pairs.

Definition remaining_fields (payload : str) : list (str * str) :=
  without_hash (fields payload).

(** Step 3: the remaining pairs sorted by key, one [key=value] line each. *)
Definition key_ltb (a b : str * str) : bool := str_ltb (fst a) (fst b).

Definition sort_by_key (pairs : list (str * str)) : list (str * str) :=
  sort_by key_ltb pairs.

Definition check_string (remaining : list (str * str)) : str :=
  join [10] (map (fun kv => fst kv ++ [61] ++ snd kv) (sort_by_key remaining)).

(** Step 4: HMAC-SHA256 of the secret, keyed with the literal. *)
Definition secondary_secret (secret : bytes) : bytes :=
  HMAC.digest (lit "WebAppData") secret.

(** Step 5: HMAC-SHA256 of the check-string keyed with the secondary
    secret, in hexadecimal.  Both strings enter the hash as their UTF-8
    encoding; there is no signature when one of them has none. *)
Definition candidate_signature (secret : str) (remaining : list (str * str))
  : option str :=
  match UTF8.encode_opt secret, UTF8.encode_opt (check_string remaining) with
  | Some secret_bytes, Some check_bytes =>
      Some (HMAC.hex (HMAC.digest (secondary_secret secret_bytes) check_bytes))
  | _, _ => None
  end.

(** Steps 1 to 6. *)
Definition verify (payload secret : str) : bool :=
  match hash_field payload with
  | None => false
  | Some signature =>
      match candidate_signature secret (remaining_fields payload) with
      | Some candidate => str_eqb signature candidate
      | None => false
      end
  end.

End Spec.

(** ** Auxiliary notions of the properties *)

(** The values of a byte. *)
Definition is_byte (x : Z) : Prop := 0 <= x < 256.

(** A lowercase hexadecimal digit. *)
Definition is_lower_hex (c : Z) : bool :=
  ((48 <=? c) && (c <=? 57)) || ((97 <=? c) && (c <=? 102)).

(** A letter among the lowercase hexadecimal digits. *)
Definition is_hex_letter (c : Z) : bool := (97 <=? c) && (c <=? 102).

(** [s.upper()] on a [str] of ASCII characters. *)
Definition ascii_upper (s : str) : str :=
  map (fun c => if (97 <=? c) && (c <=? 122) then c - 32 else c) s.


(** The field [name_value] of a payload gives a pair whose key a later
    field, one of [rest], gives again. *)
Definition shadowed (name_value : str) (rest : list str) : bool :=
  match UrlParse.parse_field name_value with
  | kv :: _ => Spec.has_key (fst kv) (flat_map UrlParse.parse_field rest)
  | [] => false
  end.

Fixpoint drop_shadowed (fields : list str) : list str :=
  match fields with
  | [] => []
  | name_value :: rest =>
      if shadowed name_value rest then drop_shadowed rest
      else name_value :: drop_shadowed rest
  end.

(** The payload with all but the last occurrence of each repeated key
    removed; the other fields stay where they are. *)
Definition remove_shadowed (init_data : str) : str :=
  join [UrlParse.amp] (drop_shadowed (split UrlParse.amp init_data)).

(** Every percent sign of the string starts an escape of two hexadecimal
    digits. *)
Fixpoint well_escaped (s : str) : bool :=
  match s with
  | [] => true
  | c :: s' =>
      (if c =? UrlParse.percent
       then match UrlParse.hextobyte s' with Some _ => true | None => false end
       else true) && well_escaped s'
  end.

(** ** The payloads of the scenarios *)

Module Example.

Definition secret : str := lit "s3cr3t".

(** The check-string of the scenario of section 8: the two lines
    [auth_date=100] and [user={"id":1}]; 34 is the double quote. *)
Definition check_string : str :=
  lit "auth_date=100" ++ [10] ++
  lit "user={" ++ [34] ++ lit "id" ++ [34] ++ lit ":1}".

(** [H], computed over the check-string by the two HMAC stages. *)
Definition H : str :=
  HMAC.hexdigest (HMAC.digest (lit "WebAppData") (lit "s3cr3t"))
                 (lit "auth_date=100" ++ [10] ++
                  lit "user={" ++ [34] ++ lit "id" ++ [34] ++ lit ":1}").

Definition payload : str :=
  lit "auth_date=100&user=%7B%22id%22%3A1%7D&hash=" ++ H.



(** [payload] with its hash in capitals. *)
Definition payload_upper : str :=
  lit "auth_date=100&user=%7B%22id%22%3A1%7D&hash=" ++ ascii_upper H.

(** A payload whose only field ends in a cut percent-escape, with the
    signature of the line [a=%7]. *)
Definition payload_truncated : str :=
  lit "a=%7&hash=d75c89ddbe24783eb2978ecf504412f38eb4c06e3f095e87bc0990824122d159".

(** A payload with a repeated key, signed for the line [a=2], and the
    same pairs with the two occurrences exchanged. *)
Definition payload_repeated : str :=
  lit "a=1&a=2&hash=d7baeb18ef296a623f1e337495f2c2193ea3c0124edbd71b7e24777dbf5eeefc".

Definition payload_repeated_swapped : str :=
  lit "a=2&a=1&hash=d7baeb18ef296a623f1e337495f2c2193ea3c0124edbd71b7e24777dbf5eeefc".

(** [payload_repeated] without the shadowed first pair. *)
Definition payload_last_only : str :=
  lit "a=2&hash=d7baeb18ef296a623f1e337495f2c2193ea3c0124edbd71b7e24777dbf5eeefc".

(** The fields of [payload] in another order. *)
Definition payload_reordered : str :=
  lit "hash=" ++ H ++ lit "&user=%7B%22id%22%3A1%7D&auth_date=100".

Definition payload_no_hash : str :=
  lit "auth_date=100&user=%7B%22id%22%3A1%7D".

End Example.

(** A Unicode scalar value: a code point that is no surrogate.  These are
    the characters [str.encode()] accepts. *)
Definition is_scalar (c : Z) : Prop :=
  0 <= c < 0xD800 \/ 0xDFFF < c < 0x110000.

(** A pair of strings of scalar values. *)
Definition scalar_pair (kv : str * str) : Prop :=
  Forall is_scalar (fst kv) /\ Forall is_scalar (snd kv).

(** No percent sign of the string starts an escape: none is followed by
    two hexadecimal digits. *)
Fixpoint no_escape (s : str) : bool :=
  match s with
  | [] => true
  | c :: s' =>
      (if c =? UrlParse.percent
       then match UrlParse.hextobyte s' with Some _ => false | None => true end
       else true) && no_escape s'
  end.

(** ** Further payloads *)

Module MoreExamples.

(** Two fields [a=1] and [b=2], and their signature. *)
Definition payload_two_fields : str :=
  lit "a=1&b=2&hash=c5afc2389169564edc44148d5190233db16104bae543964248b4dc158ee75201".

(** One field [a] whose value holds a newline and the text [b=2], with the
    same signature. *)
Definition payload_one_field : str :=
  lit "a=1%0Ab%3D2&hash=c5afc2389169564edc44148d5190233db16104bae543964248b4dc158ee75201".

(** [payload_two_fields] with a field without [=] and a field with a blank
    value put in. *)
Definition payload_with_flags : str :=
  lit "a=1&flag&b=2&x=&hash=c5afc2389169564edc44148d5190233db16104bae543964248b4dc158ee75201".

End MoreExamples.

(** ** The fields of a payload, read literally *)

(** Step 1 of section 4.1 taken at its word: the payload is cut at every
    [&], every field is a pair [key=value], and key and value are
    percent-decoded.  Beside it, the conventions [parse_qsl] adds. *)
Module Literal.

(** A field cut at its first [=]: the key and the value; the value is
    empty when the field has no [=]. *)
Definition cut (field : str) : str * str :=
  match split1 UrlParse.equals field with
  | [name; value] => (name, value)
  | _ => (field, [])
  end.

Definition raw_pairs (payload : str) : list (str * str) :=
  map cut (split UrlParse.amp payload).

Definition percent_decoded (kv : str * str) : str * str :=
  (UrlParse.unquote (fst kv), UrlParse.unquote (snd kv)).

(** The percent-decoded [key=value] pairs of the payload. *)
Definition pairs (payload : str) : list (str * str) :=
  map percent_decoded (raw_pairs payload).

Definition hash_field (payload : str) : option str :=
  Spec.lookup Spec.hash_key (pairs payload).

Definition remaining_fields (payload : str) : list (str * str) :=
  Spec.without_hash (pairs payload).

(** The conventions of the parser.  A field with nothing behind its first
    [=], or without [=], is left out. *)
Definition has_value (kv : str * str) : bool :=
  match snd kv with [] => false | _ => true end.

(** A plus sign stands for a space, in the key and in the value. *)
Definition plus_decoded (kv : str * str) : str * str :=
  percent_decoded (replace UrlParse.plus UrlParse.space (fst kv),
                   replace UrlParse.plus UrlParse.space (snd kv)).

(** Of the fields with one key the last one counts. *)
Definition by_convention (payload : str) : list (str * str) :=
  Spec.keep_last (map plus_decoded (filter has_value (raw_pairs payload))).

Fixpoint distinct_keys (l : list (str * str)) : bool :=
  match l with
  | [] => true
  | kv :: rest => negb (Spec.has_key (fst kv) rest) && distinct_keys rest
  end.

(** A payload on which the conventions change nothing: every field has a
    value, there is no plus sign, and no key comes twice. *)
Definition regular (payload : str) : bool :=
  forallb (fun kv => has_value kv
                     && negb (contains UrlParse.plus (fst kv))
                     && negb (contains UrlParse.plus (snd kv)))
          (raw_pairs payload)
  && distinct_keys (pairs payload).

End Literal.

(** The payload [a=&b=1&hash=...] with the signature of the two lines
    [a=] and [b=1], and with the signature of the line [b=1]. *)
Module BlankValue.

Definition secret : str := lit "s3cr3t".

Definition signature_of_both : str :=
  HMAC.hexdigest (HMAC.digest (lit "WebAppData") (lit "s3cr3t"))
                 (lit "a=" ++ [10] ++ lit "b=1").

Definition signature_of_second : str :=
  HMAC.hexdigest (HMAC.digest (lit "WebAppData") (lit "s3cr3t"))
                 (lit "b=1").

Definition payload_signed_both : str :=
  lit "a=&b=1&hash=" ++ signature_of_both.

Definition payload_signed_second : str :=
  lit "a=&b=1&hash=" ++ signature_of_second.

End BlankValue.

(** ** Flipped characters *)









(** * The handler of the orders of the web form *)

Module Handler.

(** A literal of the source with characters beyond ASCII: the file holds
    it in UTF-8. *)
Definition text (s : string) : str := UTF8.decode_replace (lit s).

Definition nl : str := [10].

(** ** Exceptions *)

(** The exception classes of the handler.  [ApiError] stands for what
    sending a message raises when it fails ([Exception] subclasses of the
    bot framework and of the network layer), [OtherException] for any
    other subclass of [Exception] ([RecursionError] of [json.loads], say),
    [Cancelled] for [asyncio.CancelledError], which derives from
    [BaseException] only. *)
Inductive pyexc : Type :=
| JSONDecodeError
| AttributeError
| TypeError
| ValueError
| ApiError
| OtherException
| Cancelled.

Definition is_JSONDecodeError (e : pyexc) : bool :=
  match e with JSONDecodeError => true | _ => false end.

Definition is_Exception (e : pyexc) : bool :=
  match e with Cancelled => false | _ => true end.

Inductive outcome (A : Type) : Type :=
| Ok (a : A)
| Raised (e : pyexc).
Arguments Ok {A} a.
Arguments Raised {A} e.

(** ** The values [json.loads] returns *)

#[local] Unset Elimination Schemes.
Inductive json (float : Type) : Type :=
| JNull
| JBool (b : bool)
| JInt (n : Z)
| JFloat (x : float)
| JStr (s : str)
| JList (l : list (json float))
| JDict (d : list (str * json float)).
#[local] Set Elimination Schemes.
Arguments JNull {float}.
Arguments JBool {float} b.
Arguments JInt {float} n.
Arguments JFloat {float} x.
Arguments JStr {float} s.
Arguments JList {float} l.
Arguments JDict {float} d.

(** What Python does with a float, and how it writes a list or a
    dictionary; [str] of a container fails, with a [ValueError], on an
    integer beyond the digit limit: [None]. *)
Class Rendering (float : Type) : Type := {
  float_truth : float -> bool;
  float_str : float -> str;
  float_comma : float -> str;
  container_str : json float -> option str
}.

(** ** Integers as text *)

Fixpoint uint_codes (u : Decimal.uint) : str :=
  match u with
  | Decimal.Nil => []
  | Decimal.D0 u' => 48 :: uint_codes u'
  | Decimal.D1 u' => 49 :: uint_codes u'
  | Decimal.D2 u' => 50 :: uint_codes u'
  | Decimal.D3 u' => 51 :: uint_codes u'
  | Decimal.D4 u' => 52 :: uint_codes u'
  | Decimal.D5 u' => 53 :: uint_codes u'
  | Decimal.D6 u' => 54 :: uint_codes u'
  | Decimal.D7 u' => 55 :: uint_codes u'
  | Decimal.D8 u' => 56 :: uint_codes u'
  | Decimal.D9 u' => 57 :: uint_codes u'
  end.

(** The value of a string of decimal digits. *)
Definition decimal_value (ds : str) : Z :=
  fold_left (fun acc d => 10 * acc + (d - 48)) ds 0.

(** The decimal digits of the absolute value. *)
Definition digits (n : Z) : str :=
  match n with
  | Z0 => [48]
  | Zpos p | Zneg p => uint_codes (Pos.to_uint p)
  end.

Definition sign (n : Z) : str := if n <? 0 then [45] else [].

(** [sys.get_int_max_str_digits()] *)
Definition max_str_digits : nat := 4300.

(** [str(n)] *)
Definition int_str (n : Z) : outcome str :=
  if (max_str_digits <? length (digits n))%nat then Raised ValueError
  else Ok (sign n ++ digits n).

(** The digits, least significant first, with a comma after every third
    one that is not the last; [k] digits stand since the last comma. *)
Fixpoint commas (k : nat) (r : list Z) : list Z :=
  match r with
  | [] => []
  | d :: r' =>
      match r' with
      | [] => [d]
      | _ :: _ =>
          match k with
          | S (S _) => d :: 44 :: commas 0 r'
          | _ => d :: commas (S k) r'
          end
      end
  end.

(** [format(n, ',')] *)
Definition int_comma (n : Z) : outcome str :=
  if (max_str_digits <? length (digits n))%nat then Raised ValueError
  else Ok (sign n ++ rev (commas 0 (rev (digits n)))).

Section WithRendering.

Context {float : Type} {R : Rendering float}.

(** [str(v)], what a replacement field without format puts in. *)
Definition py_str (v : json float) : outcome str :=
  match v with
  | JNull => Ok (lit "None")
  | JBool true => Ok (lit "True")
  | JBool false => Ok (lit "False")
  | JInt n => int_str n
  | JFloat x => Ok (float_str x)
  | JStr s => Ok s
  | JList _ | JDict _ =>
      match container_str v with
      | Some s => Ok s
      | None => Raised ValueError
      end
  end.

(** [format(v, ',')], the replacement field [{price:,}]. *)
Definition format_comma (v : json float) : outcome str :=
  match v with
  | JInt n => int_comma n
  | JBool true => Ok (lit "1")
  | JBool false => Ok (lit "0")
  | JFloat x => Ok (float_comma x)
  | JStr _ => Raised ValueError
  | JNull | JList _ | JDict _ => Raised TypeError
  end.

(** [bool(v)] *)
Definition truthy (v : json float) : bool :=
  match v with
  | JNull => false
  | JBool b => b
  | JInt n => negb (n =? 0)
  | JFloat x => float_truth x
  | JStr s => match s with [] => false | _ => true end
  | JList l => match l with [] => false | _ => true end
  | JDict d => match d with [] => false | _ => true end
  end.

Fixpoint assoc {A : Type} (k : str) (l : list (str * A)) : option A :=
  match l with
  | [] => None
  | (k', v) :: l' => if str_eqb k' k then Some v else assoc k l'
  end.

(** [data.get(key, default)]; only a dictionary has the method. *)
Definition get (data : json float) (key : str) (default : json float)
  : outcome (json float) :=
  match data with
  | JDict d => Ok (match assoc key d with Some v => v | None => default end)
  | _ => Raised AttributeError
  end.

(** [NAMES.get(code, code)] on one of the tables of names; a list or a
    dictionary cannot be a key. *)
Definition names_get (names : list (str * str)) (code : json float)
  : outcome (json float) :=
  match code with
  | JStr s => Ok (match assoc s names with Some n => JStr n | None => code end)
  | JList _ | JDict _ => Raised TypeError
  | _ => Ok code
  end.

End WithRendering.

(** ** The tables and the texts *)

Definition SERVICE_NAMES : list (str * str) :=
  [ (lit "mixing", text "🎚 Сведение");
    (lit "lyrics", text "✍️ Создание текста");
    (lit "arrangement", text "🎹 Аранжировка");
    (lit "help", text "🤝 Помощь с треком");
    (lit "fulltrack", text "⭐️ Трек под ключ") ].

Definition GENRE_NAMES : list (str * str) :=
  [ (lit "pop", text "🎤 Поп");
    (lit "rock", text "🎸 Рок");
    (lit "poprock", text "🎵 Поп-рок");
    (lit "electronic", text "🎧 Электронная");
    (lit "alternative", text "🌙 Альтернатива") ].

Definition QUALITY_NAMES : list (str * str) :=
  [ (lit "basic", text "📦 Базовое (-10%)");
    (lit "medium", text "📊 Среднее (-5%)");
    (lit "best", text "💎 Наилучшее (+5%)") ].

Definition admin_report_text 
    (name phone username user_id service_name lyrics_info genre_name
     quality_name price comment timestamp : str) : str :=
  concat [
    nl; text "<b>🌑 НОВЫЙ ЗАКАЗ</b>"; nl; text "━━━━━━━━━━━━━━━━━━━━"; nl; nl;
    text "<b>👤 Клиент:</b>"; nl; text "├ Имя: <code>"; name; text "</code>";
    nl; text "├ Телефон: <code>"; phone; text "</code>"; nl;
    text "├ Username: @"; username; nl; text "└ ID: <code>"; user_id;
    text "</code>"; nl; nl; text "<b>📋 Заказ:</b>"; nl; text "├ Услуга: ";
    service_name; nl; text "├ Нужен текст: "; lyrics_info; nl;
    text "├ Жанр: "; genre_name; nl; text "└ Качество: "; quality_name; nl;
    nl; text "<b>💰 Итоговая цена:</b>"; nl; text "<code>"; price;
    text " ₽</code>"; nl; nl; text "<b>💬 Комментарий:</b>"; nl; text "<i>";
    comment; text "</i>"; nl; nl; text "━━━━━━━━━━━━━━━━━━━━"; nl;
    text "<i>🕐 "; timestamp; text "</i>"; nl ].

Definition user_confirmation_text (name service_name price : str) : str :=
  concat [
    nl; text "<b>✅ Заказ принят!</b>"; nl; nl; text "Спасибо, <b>"; name;
    text "</b>!"; nl; nl; text "Твой заказ на <b>"; service_name;
    text "</b> успешно оформлен."; nl; nl;
    text "<b>Итоговая стоимость:</b> <code>"; price; text " ₽</code>"; nl;
    nl; text "Мы свяжемся с тобой в ближайшее время для обсуждения деталей.";
    nl; nl; text "<i>🌑 TENEVERSIYA</i>"; nl ].

Definition decode_error_text : str :=
  text "❌ Ошибка при обработке заказа. Попробуй ещё раз.".

Definition generic_error_text : str :=
  text "❌ Произошла ошибка. Пожалуйста, попробуй позже или напиши нам напрямую.".

(** ** Effects: the log and the messages sent *)

(** [ADMIN_ID], or the chat of the message handled. *)
Inductive chat : Type := Admin | User.

Inductive log_line : Type :=
| ReceivedOrder
| OrderProcessed
| JsonDecodeErrorLogged (e : pyexc)
| ProcessingErrorLogged (e : pyexc).

(** A line of the log, or the attempt to send a text: [delivered] tells
    whether the call returned rather than raised. *)
Inductive event : Type :=
| Logged (l : log_line)
| Send (to : chat) (message : str) (delivered : bool).

(** A computation: the events so far, and a value or the exception that
    stopped it. *)
Definition M (A : Type) : Type := list event * outcome A.

Definition ret {A : Type} (a : A) : M A := ([], Ok a).

Definition bind {A B : Type} (m : M A) (f : A -> M B) : M B :=
  match m with
  | (tr, Ok a) => let '(tr', r) := f a in (tr ++ tr', r)
  | (tr, Raised e) => (tr, Raised e)
  end.

Definition lift {A : Type} (o : outcome A) : M A := ([], o).

Definition log (l : log_line) : M unit := ([Logged l], Ok tt).

Section WithApi.

Context {float : Type} {R : Rendering float}.

(** What the messaging API does with a text for a chat: nothing to
    report, or an exception. *)
Variable api : chat -> str -> option pyexc.

(** [await bot.send_message(chat, text, ...)], [await message.answer(text, ...)] *)
Definition send (to : chat) (message : str) : M unit :=
  match api to message with
  | None => ([Send to message true], Ok tt)
  | Some e => ([Send to message false], Raised e)
  end.

(** [message.from_user.id]; [from_user] can be [None]. *)
Definition from_user_id (from_user : option Z) : outcome Z :=
  match from_user with
  | Some id => Ok id
  | None => Raised AttributeError
  end.

Local Notation "x <~ m ;; k" := (bind m (fun x => k))
  (at level 61, m at next level, right associativity).

(** The [try] block of [handle_webapp_data]; [loads] is what
    [json.loads(message.web_app_data.data)] gives and [now] is
    [datetime.now().isoformat()]. *)
Definition try_block (loads : outcome (json float)) (from_user : option Z)
    (now : str) : M unit :=
  data <~ lift loads ;;
  uid <~ lift (from_user_id from_user) ;;
  _ <~ lift (int_str uid) ;;
  _ <~ lift (py_str data) ;;
  _ <~ log ReceivedOrder ;;
  name <~ lift (get data (lit "name") (JStr (text "Не указано"))) ;;
  phone <~ lift (get data (lit "phone") (JStr (text "Не указан"))) ;;
  username <~ lift (get data (lit "username") (JStr (text "Скрыт"))) ;;
  user_id <~ lift (get data (lit "userId") (JInt uid)) ;;
  service <~ lift (get data (lit "service") (JStr (lit "N/A"))) ;;
  service_default <~ lift (names_get SERVICE_NAMES service) ;;
  service_name <~ lift (get data (lit "serviceName") service_default) ;;
  need_lyrics <~ lift (get data (lit "needLyrics") (JBool false)) ;;
  genre <~ lift (get data (lit "genre") (JStr (lit "N/A"))) ;;
  genre_default <~ lift (names_get GENRE_NAMES genre) ;;
  genre_name <~ lift (get data (lit "genreName") genre_default) ;;
  quality <~ lift (get data (lit "quality") (JStr (lit "N/A"))) ;;
  quality_default <~ lift (names_get QUALITY_NAMES quality) ;;
  quality_name <~ lift (get data (lit "qualityName") quality_default) ;;
  price <~ lift (get data (lit "price") (JInt 0)) ;;
  comment <~ lift (get data (lit "comment") (JStr [])) ;;
  timestamp <~ lift (get data (lit "timestamp") (JStr now)) ;;
  let lyrics_info :=
    if truthy need_lyrics then text "✅ Да" else text "❌ Нет" in
  s_name <~ lift (py_str name) ;;
  s_phone <~ lift (py_str phone) ;;
  s_username <~ lift (py_str username) ;;
  s_user_id <~ lift (py_str user_id) ;;
  s_service_name <~ lift (py_str service_name) ;;
  s_genre_name <~ lift (py_str genre_name) ;;
  s_quality_name <~ lift (py_str quality_name) ;;
  s_price <~ lift (format_comma price) ;;
  s_comment <~ lift (if truthy comment then py_str comment
                     else Ok (text "Не указан")) ;;
  s_timestamp <~ lift (py_str timestamp) ;;
  let admin_report :=
    admin_report_text s_name s_phone s_username s_user_id s_service_name
      lyrics_info s_genre_name s_quality_name s_price s_comment s_timestamp in
  _ <~ send Admin admin_report ;;
  s_name <~ lift (py_str name) ;;
  s_service_name <~ lift (py_str service_name) ;;
  s_price <~ lift (format_comma price) ;;
  let user_confirmation :=
    user_confirmation_text s_name s_service_name s_price in
  _ <~ send User user_confirmation ;;
  _ <~ lift (int_str uid) ;;
  log OrderProcessed.

(** [handle_webapp_data]: the [try] block with its two handlers. *)
Definition handle_webapp_data (loads : outcome (json float))
    (from_user : option Z) (now : str) : M unit :=
  match try_block loads from_user now with
  | (tr, Ok tt) => (tr, Ok tt)
  | (tr, Raised e) =>
      if is_JSONDecodeError e then
        let '(tr', r) :=
          _ <~ log (JsonDecodeErrorLogged e) ;; send User decode_error_text in
        (tr ++ tr', r)
      else if is_Exception e then
        let '(tr', r) :=
          _ <~ log (ProcessingErrorLogged e) ;; send User generic_error_text in
        (tr ++ tr', r)
      else (tr, Raised e)
  end.

End WithApi.

(** Values that cannot be the key of a dictionary. *)
Definition unhashable {float : Type} (v : option (json float)) : Prop :=
  match v with
  | Some (JList _) | Some (JDict _) => True
  | _ => False
  end.

(** Values that [format(v, ',')] refuses. *)
Definition not_a_number {float : Type} (v : option (json float)) : Prop :=
  match v with
  | Some (JStr _) | Some JNull | Some (JList _) | Some (JDict _) => True
  | _ => False
  end.

(** The messages of a run that were delivered, in their order. *)
Definition delivered (tr : list event) : list (chat * str) :=
  flat_map (fun ev => match ev with
                      | Send to message true => [(to, message)]
                      | _ => []
                      end) tr.

(** The messages of a run that were attempted, in their order. *)
Definition attempted (tr : list event) : list (chat * str) :=
  flat_map (fun ev => match ev with
                      | Send to message _ => [(to, message)]
                      | _ => []
                      end) tr.

End Handler.

(** * Properties *)

(** ** Strings: equality and order *)

Lemma str_eqb_eq (a b : str) : str_eqb a b = true <-> a = b.
Proof.
  revert b; induction a as [|x a IH]; intros [|y b]; simpl; split;
    try reflexivity; try discriminate.
  - intro H. apply andb_true_iff in H as [Hx Hr].
    apply Z.eqb_eq in Hx. apply IH in Hr. now subst.
  - intro H. injection H as -> ->.
    rewrite Z.eqb_refl. simpl. now apply IH.
Qed.

Lemma str_eqb_refl (a : str) : str_eqb a a = true.
Proof. now apply str_eqb_eq. Qed.

Lemma str_eqb_neq (a b : str) : str_eqb a b = false <-> a <> b.
Proof.
  split.
  - intros H E. apply str_eqb_eq in E. congruence.
  - intro H. destruct (str_eqb a b) eqn:E; [|reflexivity].
    apply str_eqb_eq in E. contradiction.
Qed.

Lemma str_eqb_sym (a b : str) : str_eqb a b = str_eqb b a.
Proof.
  destruct (str_eqb a b) eqn:E.
  - apply str_eqb_eq in E. subst. now rewrite str_eqb_refl.
  - symmetry. apply str_eqb_neq. apply str_eqb_neq in E. congruence.
Qed.

Lemma str_ltb_irrefl (a : str) : str_ltb a a = false.
Proof. induction a as [|x a IH]; simpl; [reflexivity|]. now rewrite Z.eqb_refl. Qed.

Lemma str_ltb_trans (a b c : str) :
  str_ltb a b = true -> str_ltb b c = true -> str_ltb a c = true.
Proof.
  revert b c; induction a as [|x a IH]; intros [|y b] [|z c]; simpl;
    try discriminate; try reflexivity.
  destruct (x =? y) eqn:Exy, (y =? z) eqn:Eyz;
    rewrite ?Z.eqb_eq, ?Z.eqb_neq in *; intros H1 H2.
  - subst. rewrite Z.eqb_refl. eauto.
  - subst. apply Z.eqb_neq in Eyz. now rewrite Eyz.
  - subst. apply Z.eqb_neq in Exy. now rewrite Exy.
  - apply Z.ltb_lt in H1, H2.
    destruct (x =? z) eqn:Exz; [apply Z.eqb_eq in Exz; lia|].
    apply Z.ltb_lt. lia.
Qed.

Lemma str_ltb_total (a b : str) :
  str_ltb a b = false -> str_ltb b a = false -> a = b.
Proof.
  revert b; induction a as [|x a IH]; intros [|y b]; simpl;
    try discriminate; try reflexivity.
  rewrite (Z.eqb_sym y x).
  destruct (x =? y) eqn:Exy.
  - apply Z.eqb_eq in Exy. subst. intros H1 H2. f_equal. now apply IH.
  - apply Z.eqb_neq in Exy. intros H1 H2.
    apply Z.ltb_ge in H1, H2. lia.
Qed.

Lemma str_ltb_asym (a b : str) : str_ltb a b = true -> str_ltb b a = false.
Proof.
  intro H. destruct (str_ltb b a) eqn:E; [|reflexivity].
  pose proof (str_ltb_trans _ _ _ H E) as C.
  rewrite str_ltb_irrefl in C. discriminate.
Qed.

Lemma str_ltb_le_trans (a b c : str) :
  str_ltb b a = false -> str_ltb c b = false -> str_ltb c a = false.
Proof.
  intros Hab Hbc. destruct (str_ltb c a) eqn:Hca; [|reflexivity].
  destruct (str_ltb a b) eqn:Hlt.
  - rewrite (str_ltb_trans _ _ _ Hca Hlt) in Hbc. discriminate.
  - pose proof (str_ltb_total _ _ Hlt Hab). subst. congruence.
Qed.

(** ** Sorting by insertion *)

Section SortBy.

Context {A : Type} (ltb : A -> A -> bool).

Hypothesis ltb_asym : forall a b, ltb a b = true -> ltb b a = false.
Hypothesis le_trans :
  forall a b c, ltb b a = false -> ltb c b = false -> ltb c a = false.

Lemma insert_by_perm (x : A) (l : list A) :
  Permutation (insert_by ltb x l) (x :: l).
Proof.
  induction l as [|y l IH]; simpl; [reflexivity|].
  destruct (ltb y x); [|reflexivity].
  rewrite IH. apply perm_swap.
Qed.

Lemma sort_by_perm (l : list A) : Permutation (sort_by ltb l) l.
Proof.
  induction l as [|x l IH]; simpl; [reflexivity|].
  rewrite insert_by_perm. now constructor.
Qed.

Lemma insert_by_sorted (x : A) (l : list A) :
  StronglySorted (le_of ltb) l -> StronglySorted (le_of ltb) (insert_by ltb x l).
Proof.
  induction 1 as [|y l Hs IH Hy]; simpl.
  - repeat constructor.
  - destruct (ltb y x) eqn:E.
    + constructor; [exact IH|].
      rewrite insert_by_perm. constructor; [|exact Hy].
      unfold le_of. now apply ltb_asym.
    + constructor; [now constructor|].
      constructor; [exact E|].
      eapply Forall_impl; [|exact Hy].
      intros z Hz. unfold le_of in *. eapply le_trans; eassumption.
Qed.

Lemma sort_by_sorted (l : list A) : StronglySorted (le_of ltb) (sort_by ltb l).
Proof.
  induction l as [|x l IH]; simpl; [constructor|].
  now apply insert_by_sorted.
Qed.

Hypothesis le_antisym :
  forall a b, ltb b a = false -> ltb a b = false -> a = b.

(** A list has one sorted arrangement only. *)
Lemma sorted_perm_unique (l1 l2 : list A) :
  Permutation l1 l2 ->
  StronglySorted (le_of ltb) l1 -> StronglySorted (le_of ltb) l2 -> l1 = l2.
Proof.
  revert l2; induction l1 as [|x l1 IH]; intros l2 HP H1 H2.
  - apply Permutation_nil in HP. now subst.
  - destruct l2 as [|y l2].
    { apply Permutation_sym, Permutation_nil in HP. discriminate. }
    inversion H1 as [|? ? Hs1 Hx]; subst.
    inversion H2 as [|? ? Hs2 Hy]; subst.
    assert (x = y) as ->.
    { assert (In x (y :: l2)) as Ix
        by (eapply Permutation_in; [exact HP|now left]).
      assert (In y (x :: l1)) as Iy
        by (eapply Permutation_in; [apply Permutation_sym; exact HP|now left]).
      destruct Ix as [->|Ix]; [reflexivity|].
      destruct Iy as [->|Iy]; [reflexivity|].
      rewrite Forall_forall in Hx, Hy.
      apply le_antisym; [apply Hx, Iy|apply Hy, Ix]. }
    f_equal. apply IH; auto.
    eapply Permutation_cons_inv; exact HP.
Qed.

Lemma sort_by_perm_eq (l1 l2 : list A) :
  Permutation l1 l2 -> sort_by ltb l1 = sort_by ltb l2.
Proof.
  intro HP. apply sorted_perm_unique; try apply sort_by_sorted.
  rewrite !sort_by_perm. exact HP.
Qed.

End SortBy.

(** ** The orders on pairs *)

Lemma tuple_ltb_trans (a b c : str * str) :
  tuple_ltb a b = true -> tuple_ltb b c = true -> tuple_ltb a c = true.
Proof.
  destruct a as [k1 v1], b as [k2 v2], c as [k3 v3]. unfold tuple_ltb; simpl.
  destruct (str_eqb k1 k2) eqn:E12; [apply str_eqb_eq in E12; subst|];
    (destruct (str_eqb k2 k3) eqn:E23; [apply str_eqb_eq in E23; subst|]).
  - rewrite ?str_eqb_refl. apply str_ltb_trans.
  - rewrite ?E23. auto.
  - rewrite ?E12. auto.
  - intros H1 H2. pose proof (str_ltb_trans _ _ _ H1 H2) as H3.
    destruct (str_eqb k1 k3) eqn:E13; [|exact H3].
    apply str_eqb_eq in E13. subst. now rewrite str_ltb_irrefl in H3.
Qed.

Lemma tuple_ltb_irrefl (a : str * str) : tuple_ltb a a = false.
Proof. unfold tuple_ltb. rewrite str_eqb_refl. apply str_ltb_irrefl. Qed.

Lemma tuple_ltb_asym (a b : str * str) :
  tuple_ltb a b = true -> tuple_ltb b a = false.
Proof.
  intro H. destruct (tuple_ltb b a) eqn:E; [|reflexivity].
  pose proof (tuple_ltb_trans _ _ _ H E) as C.
  rewrite tuple_ltb_irrefl in C. discriminate.
Qed.

Lemma tuple_ltb_total (a b : str * str) :
  tuple_ltb b a = false -> tuple_ltb a b = false -> a = b.
Proof.
  destruct a as [k1 v1], b as [k2 v2]. unfold tuple_ltb; simpl.
  rewrite (str_eqb_sym k2 k1).
  destruct (str_eqb k1 k2) eqn:E.
  - apply str_eqb_eq in E. subst. intros H1 H2. f_equal.
    now apply str_ltb_total.
  - intros H1 H2. apply str_eqb_neq in E.
    exfalso. apply E. now apply str_ltb_total.
Qed.

Lemma tuple_ltb_le_trans (a b c : str * str) :
  tuple_ltb b a = false -> tuple_ltb c b = false -> tuple_ltb c a = false.
Proof.
  intros Hab Hbc. destruct (tuple_ltb c a) eqn:Hca; [|reflexivity].
  destruct (tuple_ltb a b) eqn:Hlt.
  - rewrite (tuple_ltb_trans _ _ _ Hca Hlt) in Hbc. discriminate.
  - pose proof (tuple_ltb_total _ _ Hab Hlt). subst. congruence.
Qed.

Lemma key_ltb_asym (a b : str * str) :
  Spec.key_ltb a b = true -> Spec.key_ltb b a = false.
Proof. apply str_ltb_asym. Qed.

Lemma key_ltb_le_trans (a b c : str * str) :
  Spec.key_ltb b a = false -> Spec.key_ltb c b = false ->
  Spec.key_ltb c a = false.
Proof. apply str_ltb_le_trans. Qed.

(** [sorted] does not depend on the order of its argument. *)
Lemma sorted_perm_eq (l1 l2 : list (str * str)) :
  Permutation l1 l2 -> sorted l1 = sorted l2.
Proof.
  apply sort_by_perm_eq.
  - apply tuple_ltb_asym.
  - apply tuple_ltb_le_trans.
  - apply tuple_ltb_total.
Qed.

(** ** Association lists *)

Lemma has_key_true (k : str) (l : list (str * str)) :
  Spec.has_key k l = true <-> In k (keys l).
Proof.
  unfold Spec.has_key, keys. rewrite existsb_exists, in_map_iff. split.
  - intros [kv [Hin E]]. apply str_eqb_eq in E. eauto.
  - intros [kv [E Hin]]. exists kv. split; [exact Hin|]. now apply str_eqb_eq.
Qed.

Lemma has_key_false (k : str) (l : list (str * str)) :
  Spec.has_key k l = false <-> ~ In k (keys l).
Proof.
  rewrite <- has_key_true. destruct (Spec.has_key k l); split; congruence.
Qed.

Lemma lookup_cons (k : str) (kv : str * str) (l : list (str * str)) :
  Spec.lookup k (kv :: l) =
  if str_eqb (fst kv) k then Some (snd kv) else Spec.lookup k l.
Proof.
  unfold Spec.lookup. cbn [find].
  destruct (str_eqb (fst kv) k); reflexivity.
Qed.

Lemma lookup_none (k : str) (l : list (str * str)) :
  Spec.lookup k l = None <-> Spec.has_key k l = false.
Proof.
  induction l as [|kv l IH]; [simpl; tauto|].
  rewrite lookup_cons. simpl. destruct (str_eqb (fst kv) k); simpl.
  - split; discriminate.
  - exact IH.
Qed.

Lemma lookup_in (k v : str) (l : list (str * str)) :
  NoDup (keys l) -> (In (k, v) l <-> Spec.lookup k l = Some v).
Proof.
  induction l as [|[k0 v0] l IH]; intro ND.
  - simpl. split; [tauto|discriminate].
  - inversion ND as [|? ? Hnotin ND']; subst.
    rewrite lookup_cons. simpl. destruct (str_eqb k0 k) eqn:E.
    + apply str_eqb_eq in E. subst. split.
      * intros [H|H]; [now inversion H|].
        exfalso. apply Hnotin. change k with (fst (k, v)). now apply in_map.
      * intro H. inversion H. now left.
    + apply str_eqb_neq in E. rewrite <- (IH ND'). split.
      * intros [H|H]; [inversion H; congruence|exact H].
      * now right.
Qed.

Lemma NoDup_keys_NoDup (l : list (str * str)) : NoDup (keys l) -> NoDup l.
Proof. apply NoDup_map_inv. Qed.

(** Association lists without repeated keys that map every key alike
    hold the same pairs. *)
Lemma same_lookup_perm (l1 l2 : list (str * str)) :
  NoDup (keys l1) -> NoDup (keys l2) ->
  (forall k, Spec.lookup k l1 = Spec.lookup k l2) ->
  Permutation l1 l2.
Proof.
  intros N1 N2 H. apply NoDup_Permutation; try now apply NoDup_keys_NoDup.
  intros [k v]. rewrite (lookup_in k v l1 N1), (lookup_in k v l2 N2).
  now rewrite H.
Qed.

Lemma has_key_cons (k : str) (kv : str * str) (l : list (str * str)) :
  Spec.has_key k (kv :: l) = str_eqb (fst kv) k || Spec.has_key k l.
Proof. reflexivity. Qed.

Lemma has_key_keep_last (k : str) (l : list (str * str)) :
  Spec.has_key k (Spec.keep_last l) = Spec.has_key k l.
Proof.
  induction l as [|kv l IH]; [reflexivity|].
  cbn [Spec.keep_last]. rewrite has_key_cons.
  destruct (Spec.has_key (fst kv) l) eqn:E.
  - rewrite IH. destruct (str_eqb (fst kv) k) eqn:Ek; [|reflexivity].
    apply str_eqb_eq in Ek. subst. exact E.
  - rewrite has_key_cons, IH. reflexivity.
Qed.

Lemma NoDup_keep_last (l : list (str * str)) : NoDup (keys (Spec.keep_last l)).
Proof.
  induction l as [|kv l IH]; [constructor|].
  cbn [Spec.keep_last]. destruct (Spec.has_key (fst kv) l) eqn:E; [exact IH|].
  simpl. constructor; [|exact IH].
  apply has_key_false. now rewrite has_key_keep_last.
Qed.

(** Without repeated keys there is nothing to remove. *)
Lemma keep_last_NoDup (l : list (str * str)) :
  NoDup (keys l) -> Spec.keep_last l = l.
Proof.
  induction l as [|kv l IH]; [reflexivity|].
  intro ND. inversion ND as [|? ? Hnotin ND']; subst.
  cbn [Spec.keep_last]. apply has_key_false in Hnotin. rewrite Hnotin.
  now rewrite IH.
Qed.

(** *** [dict] operations *)

Lemma keys_setitem (d : dict) (k v : str) :
  keys (dict_setitem d k v) =
  if Spec.has_key k d then keys d else keys d ++ [k].
Proof.
  induction d as [|[k0 v0] d IH]; [reflexivity|].
  cbn [dict_setitem]. rewrite has_key_cons. cbn [fst].
  destruct (str_eqb k0 k); [reflexivity|].
  unfold keys in *. cbn [map fst orb]. rewrite IH.
  now destruct (Spec.has_key k d).
Qed.

Lemma NoDup_setitem (d : dict) (k v : str) :
  NoDup (keys d) -> NoDup (keys (dict_setitem d k v)).
Proof.
  intro ND. rewrite keys_setitem.
  destruct (Spec.has_key k d) eqn:E; [exact ND|].
  apply (Permutation_NoDup (Permutation_cons_append (keys d) k)).
  constructor; [now apply has_key_false|exact ND].
Qed.

Lemma lookup_setitem (d : dict) (k v k' : str) :
  Spec.lookup k' (dict_setitem d k v) =
  if str_eqb k k' then Some v else Spec.lookup k' d.
Proof.
  induction d as [|[k0 v0] d IH]; cbn [dict_setitem].
  - now rewrite lookup_cons.
  - destruct (str_eqb k0 k) eqn:E; rewrite !lookup_cons; cbn [fst snd].
    + apply str_eqb_eq in E. subst. now destruct (str_eqb k k').
    + rewrite IH. destruct (str_eqb k0 k') eqn:E0; [|reflexivity].
      apply str_eqb_eq in E0. subst. now rewrite str_eqb_sym, E.
Qed.

Lemma NoDup_fold_setitem (l : list (str * str)) (d : dict) :
  NoDup (keys d) -> NoDup (keys (fold_left setitem_pair l d)).
Proof.
  revert d; induction l as [|kv l IH]; intros d ND; [exact ND|].
  apply IH. now apply NoDup_setitem.
Qed.

Lemma lookup_fold_setitem (l : list (str * str)) (d : dict) (k : str) :
  Spec.lookup k (fold_left setitem_pair l d) =
  match Spec.lookup k (Spec.keep_last l) with
  | Some v => Some v
  | None => Spec.lookup k d
  end.
Proof.
  revert d; induction l as [|kv l IH]; intro d; [reflexivity|].
  cbn [fold_left Spec.keep_last]. rewrite IH.
  unfold setitem_pair. rewrite lookup_setitem.
  destruct (Spec.has_key (fst kv) l) eqn:E.
  - destruct (Spec.lookup k (Spec.keep_last l)) eqn:L; [reflexivity|].
    destruct (str_eqb (fst kv) k) eqn:Ek; [|reflexivity].
    apply str_eqb_eq in Ek. subst.
    apply lookup_none in L. rewrite has_key_keep_last in L. congruence.
  - rewrite lookup_cons.
    destruct (str_eqb (fst kv) k) eqn:Ek; [|reflexivity].
    apply str_eqb_eq in Ek. subst.
    assert (Spec.lookup (fst kv) (Spec.keep_last l) = None) as ->
      by (apply lookup_none; now rewrite has_key_keep_last).
    reflexivity.
Qed.

Lemma NoDup_dict_of_pairs (l : list (str * str)) :
  NoDup (keys (dict_of_pairs l)).
Proof. apply (NoDup_fold_setitem l []). constructor. Qed.

(** [dict(pairs)] maps every key to the value of its last pair. *)
Lemma lookup_dict_of_pairs (l : list (str * str)) (k : str) :
  Spec.lookup k (dict_of_pairs l) = Spec.lookup k (Spec.keep_last l).
Proof.
  unfold dict_of_pairs. rewrite lookup_fold_setitem.
  now destruct (Spec.lookup k (Spec.keep_last l)).
Qed.

Lemma filter_key_id (k : str) (l : list (str * str)) :
  Spec.has_key k l = false ->
  filter (fun kv => negb (str_eqb (fst kv) k)) l = l.
Proof.
  induction l as [|kv l IH]; [reflexivity|].
  rewrite has_key_cons. intro H. apply orb_false_iff in H as [H1 H2].
  cbn [filter]. rewrite H1. cbn [negb]. now rewrite IH.
Qed.

(** [d.pop(k)] on a dictionary that has the key. *)
Lemma dict_pop_spec (d : dict) (k : str) :
  NoDup (keys d) -> Spec.has_key k d = true ->
  exists v, Spec.lookup k d = Some v /\
            dict_pop d k =
            Return (v, filter (fun kv => negb (str_eqb (fst kv) k)) d).
Proof.
  induction d as [|[k0 v0] d IH]; intros ND H; [discriminate|].
  inversion ND as [|? ? Hnotin ND']; subst.
  rewrite has_key_cons in H. rewrite lookup_cons.
  cbn [dict_pop filter fst snd] in *.
  destruct (str_eqb k0 k) eqn:E; cbn [negb].
  - exists v0. split; [reflexivity|].
    apply str_eqb_eq in E. subst.
    rewrite filter_key_id; [reflexivity|]. now apply has_key_false.
  - destruct (IH ND' H) as [v [Hl Hp]]. exists v. split; [exact Hl|].
    rewrite Hp. reflexivity.
Qed.

Lemma keys_filter_incl (f : str * str -> bool) (l : list (str * str)) (k : str) :
  In k (keys (filter f l)) -> In k (keys l).
Proof.
  unfold keys. rewrite !in_map_iff. intros [kv [E H]].
  apply filter_In in H as [H _]. eauto.
Qed.

Lemma NoDup_keys_filter (f : str * str -> bool) (l : list (str * str)) :
  NoDup (keys l) -> NoDup (keys (filter f l)).
Proof.
  induction l as [|kv l IH]; intro ND; [constructor|].
  inversion ND as [|? ? Hnotin ND']; subst.
  cbn [filter]. destruct (f kv); [|now apply IH].
  simpl. constructor; [|now apply IH].
  intro H. apply Hnotin. eapply keys_filter_incl; exact H.
Qed.

Lemma lookup_without_hash (l : list (str * str)) (k : str) :
  Spec.lookup k (Spec.without_hash l) =
  if str_eqb k Spec.hash_key then None else Spec.lookup k l.
Proof.
  induction l as [|kv l IH]; [now destruct (str_eqb k Spec.hash_key)|].
  unfold Spec.without_hash in *. cbn [filter]. rewrite lookup_cons.
  destruct (str_eqb (fst kv) Spec.hash_key) eqn:E; cbn [negb].
  - rewrite IH. destruct (str_eqb k Spec.hash_key) eqn:Ek; [reflexivity|].
    destruct (str_eqb (fst kv) k) eqn:E2; [|reflexivity].
    apply str_eqb_eq in E2. subst. congruence.
  - rewrite lookup_cons, IH.
    destruct (str_eqb (fst kv) k) eqn:E2; [|reflexivity].
    apply str_eqb_eq in E2. subst. now rewrite E.
Qed.

(** ** Sorting pairs with distinct keys *)

Lemma key_sorted_tuple_sorted (l : list (str * str)) :
  NoDup (keys l) ->
  StronglySorted (le_of Spec.key_ltb) l -> StronglySorted (le_of tuple_ltb) l.
Proof.
  intros ND HS. induction HS as [|a l HS IH Ha]; [constructor|].
  inversion ND as [|? ? Hnotin ND']; subst.
  constructor; [now apply IH|].
  rewrite Forall_forall in *. intros b Hb.
  specialize (Ha b Hb). unfold le_of, Spec.key_ltb, tuple_ltb in *.
  destruct (str_eqb (fst b) (fst a)) eqn:E; [|exact Ha].
  apply str_eqb_eq in E. exfalso. apply Hnotin. rewrite <- E.
  now apply in_map.
Qed.

(** On pairs with distinct keys, comparing the pairs and comparing the
    keys sort alike. *)
Lemma sorted_eq_sort_by_key (l : list (str * str)) :
  NoDup (keys l) -> sorted l = Spec.sort_by_key l.
Proof.
  intro ND. unfold sorted, Spec.sort_by_key.
  apply (sorted_perm_unique tuple_ltb tuple_ltb_total).
  - now rewrite !sort_by_perm.
  - apply sort_by_sorted; [apply tuple_ltb_asym|apply tuple_ltb_le_trans].
  - apply key_sorted_tuple_sorted.
    + eapply Permutation_NoDup; [|exact ND].
      unfold keys. apply Permutation_map, Permutation_sym, sort_by_perm.
    + apply sort_by_sorted; [apply key_ltb_asym|apply key_ltb_le_trans].
Qed.

(** ** The comparison of the digests *)

Lemma fold_lor_zero (l : list (Z * Z)) (r : Z) :
  fold_left (fun r xy => Z.lor r (Z.lxor (fst xy) (snd xy))) l r = 0 <->
  r = 0 /\ Forall (fun xy => fst xy = snd xy) l.
Proof.
  revert r; induction l as [|[x y] l IH]; intro r; cbn [fold_left fst snd].
  - split; [intro H; split; [exact H|constructor]|tauto].
  - rewrite IH, Z.lor_eq_0_iff. split.
    + intros [[Hr Hx] Hl]. split; [exact Hr|].
      constructor; [now apply Z.lxor_eq|exact Hl].
    + intros [Hr Hl]. inversion Hl as [|? ? Hxy Hl']; subst.
      cbn [fst snd] in Hxy. subst. now rewrite Z.lxor_nilpotent.
Qed.

Lemma combine_eq (a b : list Z) :
  length a = length b ->
  (Forall (fun xy => fst xy = snd xy) (combine a b) <-> a = b).
Proof.
  revert b; induction a as [|x a IH]; intros [|y b] HL; try discriminate.
  - split; [reflexivity|constructor].
  - injection HL as HL. cbn [combine]. split.
    + intro H. inversion H as [|? ? Hxy H']; subst. cbn [fst snd] in Hxy.
      subst. f_equal. now apply IH.
    + intro H. injection H as -> ->. constructor; [reflexivity|].
      now apply IH.
Qed.

(** The loop of [compare_digest] answers whether the two strings are the
    same, character for character. *)
Lemma tscmp_true_iff (a b : list Z) : tscmp a b = true <-> a = b.
Proof.
  unfold tscmp. rewrite Z.eqb_eq, fold_lor_zero.
  destruct (length a =? length b)%nat eqn:E.
  - apply Nat.eqb_eq in E. rewrite (combine_eq a b E). tauto.
  - apply Nat.eqb_neq in E. split; [intros [H _]; discriminate|].
    intro H. subst. contradiction.
Qed.

Lemma tscmp_str_eqb (a b : str) : tscmp a b = str_eqb a b.
Proof.
  destruct (str_eqb a b) eqn:E.
  - apply tscmp_true_iff. now apply str_eqb_eq.
  - destruct (tscmp a b) eqn:T; [|reflexivity].
    apply tscmp_true_iff in T. apply str_eqb_neq in E. contradiction.
Qed.

(** ** The hexadecimal rendering *)

Lemma hexdigit_ascii (n : nat) :
  UrlParse.is_ascii (nth n HMAC.hexdigits 0) = true.
Proof. do 17 (destruct n as [|n]; [reflexivity|]). reflexivity. Qed.

Lemma hex_ascii (b : bytes) : forallb UrlParse.is_ascii (HMAC.hex b) = true.
Proof.
  induction b as [|x b IH]; [reflexivity|].
  unfold HMAC.hex in *. cbn [flat_map app forallb].
  now rewrite !hexdigit_ascii, IH.
Qed.

Lemma hexdigit_lower (q : Z) :
  0 <= q < 16 -> is_lower_hex (nth (Z.to_nat q) HMAC.hexdigits 0) = true.
Proof.
  intro H.
  assert (q = 0 \/ q = 1 \/ q = 2 \/ q = 3 \/ q = 4 \/ q = 5 \/ q = 6 \/ q = 7
          \/ q = 8 \/ q = 9 \/ q = 10 \/ q = 11 \/ q = 12 \/ q = 13 \/ q = 14
          \/ q = 15) as C by lia.
  repeat (destruct C as [->|C]; [reflexivity|]). now subst.
Qed.

Lemma hex_lower (b : bytes) :
  Forall is_byte b -> forallb is_lower_hex (HMAC.hex b) = true.
Proof.
  induction 1 as [|x b Hx Hb IH]; [reflexivity|].
  unfold HMAC.hex in *. cbn [flat_map app forallb].
  unfold is_byte in Hx.
  rewrite !hexdigit_lower, IH; [reflexivity| |].
  - apply Z.mod_pos_bound. lia.
  - split; [apply Z.div_pos; lia|apply Z.div_lt_upper_bound; lia].
Qed.

Lemma hex_length (b : bytes) : length (HMAC.hex b) = (2 * length b)%nat.
Proof.
  induction b as [|x b IH]; [reflexivity|].
  unfold HMAC.hex in *. cbn [flat_map app length]. rewrite IH. lia.
Qed.

Lemma be_bytes_range (n : nat) (x : Z) : Forall is_byte (SHA256.be_bytes n x).
Proof.
  unfold SHA256.be_bytes. apply Forall_map, Forall_forall. intros i _.
  unfold is_byte. change 0xFF with (Z.ones 8). rewrite Z.land_ones by lia.
  apply Z.mod_pos_bound. lia.
Qed.

Lemma sha256_digest_range (msg : bytes) : Forall is_byte (SHA256.digest msg).
Proof.
  unfold SHA256.digest, SHA256.state_bytes.
  apply Forall_flat_map, Forall_forall. intros x _. apply be_bytes_range.
Qed.

Lemma sha256_digest_length (msg : bytes) : length (SHA256.digest msg) = 32%nat.
Proof. reflexivity. Qed.

Lemma hmac_digest_range (key msg : bytes) : Forall is_byte (HMAC.digest key msg).
Proof. apply sha256_digest_range. Qed.

Lemma hexdigest_length (key msg : bytes) :
  length (HMAC.hexdigest key msg) = 64%nat.
Proof.
  unfold HMAC.hexdigest. rewrite hex_length.
  unfold HMAC.digest. now rewrite sha256_digest_length.
Qed.

Lemma hexdigest_lower (key msg : bytes) :
  forallb is_lower_hex (HMAC.hexdigest key msg) = true.
Proof. apply hex_lower, hmac_digest_range. Qed.

(** ** The verifier of the code is the verifier of the specification *)

Lemma remaining_perm (l : list (str * str)) :
  Permutation (Spec.without_hash (dict_of_pairs l))
              (Spec.without_hash (Spec.keep_last l)).
Proof.
  apply same_lookup_perm.
  - apply NoDup_keys_filter, NoDup_dict_of_pairs.
  - apply NoDup_keys_filter, NoDup_keep_last.
  - intro k. rewrite !lookup_without_hash, lookup_dict_of_pairs. reflexivity.
Qed.

(** The check-string of the code, of the dictionary left by the [pop], is
    the check-string of the specification, of the remaining fields. *)
Lemma data_check_string_spec (l : list (str * str)) :
  data_check_string (Spec.without_hash (dict_of_pairs l)) =
  Spec.check_string (Spec.without_hash (Spec.keep_last l)).
Proof.
  unfold data_check_string, Spec.check_string, dict_items.
  rewrite (sorted_perm_eq _ _ (remaining_perm l)).
  rewrite sorted_eq_sort_by_key
    by apply NoDup_keys_filter, NoDup_keep_last.
  reflexivity.
Qed.

(** The [try] block, in terms of the fields of the payload. *)
Lemma validate_init_data_try_fields (init_data bot_token : str) :
  validate_init_data_try init_data bot_token =
  match Spec.hash_field init_data with
  | None => Return false
  | Some received_hash =>
      token_bytes <- UTF8.encode bot_token ;;
      check_bytes <- UTF8.encode
        (Spec.check_string (Spec.remaining_fields init_data)) ;;
      compare_digest received_hash
        (calculated_hash (secret_key token_bytes) check_bytes)
  end.
Proof.
  unfold validate_init_data_try, Spec.hash_field, Spec.remaining_fields,
    Spec.fields.
  set (l := UrlParse.parse_qsl init_data).
  rewrite <- lookup_dict_of_pairs.
  change (dict_contains (lit "hash") (dict_of_pairs l))
    with (Spec.has_key Spec.hash_key (dict_of_pairs l)).
  destruct (Spec.has_key Spec.hash_key (dict_of_pairs l)) eqn:E; cbn [negb].
  - destruct (dict_pop_spec _ _ (NoDup_dict_of_pairs l) E) as [v [Hl Hp]].
    rewrite Hl. change (lit "hash") with Spec.hash_key. rewrite Hp.
    cbn [bind].
    change (filter _ (dict_of_pairs l))
      with (Spec.without_hash (dict_of_pairs l)).
    rewrite data_check_string_spec. reflexivity.
  - apply lookup_none in E. now rewrite E.
Qed.

Lemma compare_digest_hexdigest (received_hash : str) (key msg : bytes) :
  match compare_digest received_hash (HMAC.hexdigest key msg) with
  | Return b => b = str_eqb received_hash (HMAC.hexdigest key msg)
  | Raise e => e = TypeError /\
               str_eqb received_hash (HMAC.hexdigest key msg) = false
  end.
Proof.
  unfold compare_digest, HMAC.hexdigest. rewrite hex_ascii, andb_true_r.
  destruct (forallb UrlParse.is_ascii received_hash) eqn:E.
  - apply tscmp_str_eqb.
  - split; [reflexivity|]. apply str_eqb_neq. intro H. subst.
    rewrite hex_ascii in E. discriminate.
Qed.

(** What the [try] block raises is caught by the handler. *)
Lemma validate_init_data_try_raises (init_data bot_token : str) (e : exn) :
  validate_init_data_try init_data bot_token = Raise e ->
  e = UnicodeEncodeError \/ e = TypeError.
Proof.
  rewrite validate_init_data_try_fields.
  destruct (Spec.hash_field init_data) as [h|]; [|discriminate].
  unfold UTF8.encode.
  destruct (UTF8.encode_opt bot_token) as [tb|]; cbn [bind];
    [|intro H; injection H as <-; now left].
  destruct (UTF8.encode_opt _) as [cb|]; cbn [bind];
    [|intro H; injection H as <-; now left].
  unfold calculated_hash.
  pose proof (compare_digest_hexdigest h (secret_key tb) cb) as C.
  destruct (compare_digest h _); [discriminate|].
  intro H. injection H as <-. right. apply C.
Qed.

(** [validate_init_data] computes the verifier of the specification. *)
Lemma validate_init_data_spec (init_data bot_token : str) :
  validate_init_data init_data bot_token =
  Return (Spec.verify init_data bot_token).
Proof.
  unfold validate_init_data, validate_init_data_run, Spec.verify,
    Spec.candidate_signature.
  rewrite validate_init_data_try_fields.
  destruct (Spec.hash_field init_data) as [h|]; [|reflexivity].
  unfold UTF8.encode.
  destruct (UTF8.encode_opt bot_token) as [tb|]; cbn [bind];
    [|reflexivity].
  destruct (UTF8.encode_opt _) as [cb|]; cbn [bind]; [|reflexivity].
  unfold calculated_hash.
  pose proof (compare_digest_hexdigest h (secret_key tb) cb) as C.
  destruct (compare_digest h _) as [b|e].
  - cbn [snd]. now rewrite C.
  - destruct C as [-> C]. cbn [is_Exception snd].
    unfold HMAC.hexdigest, secret_key in C. unfold Spec.secondary_secret.
    now rewrite C.
Qed.

(** ** The scenario of section 8 *)

Lemma example_H_value :
  Example.H =
  lit "74610b64e67bedec8a2d19f6b8cec164a62fff2ba6b563e61b342a49049efb76".
Proof. vm_compute. reflexivity. Qed.

(** C5: with the secret [s3cr3t], the payload
    [auth_date=100&user=%7B%22id%22%3A1%7D&hash=H], where [H] is the
    signature of the check-string made of the lines [auth_date=100] and
    [user={"id":1}], is valid; with [auth_date] changed to 101 and the same
    [H] it is invalid. *)
Theorem scenario_valid_and_tampered_invalid :
  Spec.check_string (Spec.remaining_fields Example.payload)
    = Example.check_string
  /\ Spec.candidate_signature Example.secret
       (Spec.remaining_fields Example.payload) = Some Example.H
  /\ validate_init_data
       (lit "auth_date=100&user=%7B%22id%22%3A1%7D&hash=" ++ Example.H)
       (lit "s3cr3t") = Return true
  /\ validate_init_data
       (lit "auth_date=101&user=%7B%22id%22%3A1%7D&hash=" ++ Example.H)
       (lit "s3cr3t") = Return false.
Proof. split; [|split; [|split]]; vm_compute; reflexivity. Qed.

(** ** The contract of the verifier *)

Lemma valid_of_signature (p bot_token signature : str) :
  Spec.hash_field p = Some signature ->
  Spec.candidate_signature bot_token (Spec.remaining_fields p)
    = Some signature ->
  validate_init_data p bot_token = Return true.
Proof.
  intros Hh Hc. rewrite validate_init_data_spec. unfold Spec.verify.
  rewrite Hh, Hc. now rewrite str_eqb_refl.
Qed.

Lemma valid_or_invalid (p bot_token : str) :
  validate_init_data p bot_token = Return true \/
  validate_init_data p bot_token = Return false.
Proof.
  rewrite validate_init_data_spec.
  destruct (Spec.verify p bot_token); auto.
Qed.

(** C4: a payload whose parsed pairs have no key [hash] is invalid, whatever
    the secret. *)
Theorem no_hash_key_invalid (init_data bot_token : str) :
  ~ In (lit "hash") (keys (UrlParse.parse_qsl init_data)) ->
  validate_init_data init_data bot_token = Return false.
Proof.
  intro H. rewrite validate_init_data_spec. unfold Spec.verify.
  assert (Spec.hash_field init_data = None) as ->; [|reflexivity].
  unfold Spec.hash_field, Spec.fields.
  apply lookup_none. rewrite has_key_keep_last. now apply has_key_false.
Qed.

Lemma no_hash_key_invalid_witness :
  validate_init_data Example.payload_no_hash Example.secret = Return false.
Proof.
  apply no_hash_key_invalid. vm_compute. intuition discriminate.
Defined.

(** ** The candidate signature *)

Lemma dict_pop_has_key (d : dict) (k : str) (x : str * dict) :
  dict_pop d k = Return x -> Spec.has_key k d = true.
Proof.
  revert x; induction d as [|[k0 v0] d IH]; intros x; [discriminate|].
  cbn [dict_pop]. rewrite has_key_cons. cbn [fst].
  destruct (str_eqb k0 k); [reflexivity|].
  destruct (dict_pop d k) as [y|e]; [|discriminate].
  intros _. cbn [orb]. now apply (IH y).
Qed.

(** After the [pop] the dictionary holds the remaining fields. *)
Lemma dict_pop_parsed (l : list (str * str)) (received_hash : str)
      (parsed_data : dict) :
  dict_pop (dict_of_pairs l) (lit "hash") = Return (received_hash, parsed_data) ->
  Spec.lookup Spec.hash_key (Spec.keep_last l) = Some received_hash /\
  parsed_data = Spec.without_hash (dict_of_pairs l).
Proof.
  intro H. pose proof (dict_pop_has_key _ _ _ H) as Hk.
  destruct (dict_pop_spec _ _ (NoDup_dict_of_pairs l) Hk) as [v [Hl Hp]].
  rewrite Hp in H. injection H as <- <-.
  rewrite <- lookup_dict_of_pairs. now split.
Qed.

Lemma sorted_key_increasing (d : list (str * str)) :
  NoDup (keys d) ->
  StronglySorted (fun a b => str_ltb (fst a) (fst b) = true) (sorted d).
Proof.
  intro ND.
  assert (NoDup (keys (sorted d))) as NDs.
  { eapply Permutation_NoDup; [|exact ND]. unfold keys, sorted.
    apply Permutation_map, Permutation_sym, sort_by_perm. }
  assert (StronglySorted (le_of tuple_ltb) (sorted d)) as HS
    by (apply sort_by_sorted; [apply tuple_ltb_asym|apply tuple_ltb_le_trans]).
  induction HS as [|a l HS IH Ha]; [constructor|].
  inversion NDs as [|? ? Hnotin ND']; subst.
  constructor; [now apply IH|].
  rewrite Forall_forall in *. intros b Hb. specialize (Ha b Hb).
  unfold le_of, tuple_ltb in Ha.
  destruct (str_eqb (fst b) (fst a)) eqn:E.
  - apply str_eqb_eq in E. exfalso. apply Hnotin. rewrite <- E.
    now apply in_map.
  - destruct (str_ltb (fst a) (fst b)) eqn:L; [reflexivity|].
    apply str_eqb_neq in E. exfalso. apply E. now apply str_ltb_total.
Qed.

Lemma encode_Return (s : str) (b : bytes) :
  UTF8.encode s = Return b -> UTF8.encode_opt s = Some b.
Proof.
  unfold UTF8.encode. destruct (UTF8.encode_opt s); [|discriminate].
  intro H. now injection H as ->.
Qed.

(** C3: the signature that [validate_init_data] compares with the [hash]
    field is computed as follows: the remaining decoded pairs are put in
    increasing order of their keys and joined as [key=value] lines with
    newlines between them; a secondary key is the HMAC-SHA256 of the
    secret keyed with the literal [WebAppData]; the signature is the
    lowercase hexadecimal HMAC-SHA256 of the check-string keyed with the
    secondary key. *)
Theorem calculated_hash_computation
    (init_data bot_token received_hash : str) (parsed_data : dict) :
  dict_pop (dict_of_pairs (UrlParse.parse_qsl init_data)) (lit "hash")
    = Return (received_hash, parsed_data) ->
  (exists lines,
      Permutation lines (Spec.remaining_fields init_data) /\
      StronglySorted (fun a b => str_ltb (fst a) (fst b) = true) lines /\
      data_check_string parsed_data =
        join [10] (map (fun kv => fst kv ++ lit "=" ++ snd kv) lines))
  /\
  forall token_bytes check_bytes : bytes,
    UTF8.encode bot_token = Return token_bytes ->
    UTF8.encode (data_check_string parsed_data) = Return check_bytes ->
    let secondary := HMAC.digest (lit "WebAppData") token_bytes in
    let candidate := HMAC.hex (HMAC.digest secondary check_bytes) in
    validate_init_data_try init_data bot_token
      = compare_digest received_hash candidate /\
    Spec.candidate_signature bot_token (Spec.remaining_fields init_data)
      = Some candidate /\
    forallb is_lower_hex candidate = true /\
    length candidate = 64%nat.
Proof.
  intro Hpop. destruct (dict_pop_parsed _ _ _ Hpop) as [Hh ->].
  split.
  - exists (sorted (Spec.without_hash (dict_of_pairs (UrlParse.parse_qsl init_data)))).
    split; [|split].
    + unfold sorted. rewrite sort_by_perm. apply remaining_perm.
    + apply sorted_key_increasing, NoDup_keys_filter, NoDup_dict_of_pairs.
    + reflexivity.
  - intros token_bytes check_bytes Ht Hc secondary candidate.
    split; [|split; [|split]].
    + unfold validate_init_data_try.
      change (dict_contains (lit "hash") ?d) with (Spec.has_key (lit "hash") d).
      rewrite (dict_pop_has_key _ _ _ Hpop), Hpop. cbn [negb bind].
      rewrite Ht. cbn [bind]. rewrite Hc. reflexivity.
    + unfold Spec.candidate_signature, Spec.remaining_fields, Spec.fields.
      rewrite <- data_check_string_spec.
      now rewrite (encode_Return _ _ Ht), (encode_Return _ _ Hc).
    + apply hex_lower, hmac_digest_range.
    + apply (hexdigest_length secondary check_bytes).
Qed.

Lemma calculated_hash_computation_witness :
  validate_init_data_try Example.payload Example.secret
  = compare_digest Example.H
      (HMAC.hex (HMAC.digest (HMAC.digest (lit "WebAppData") (lit "s3cr3t"))
                             Example.check_string)).
Proof.
  refine (proj1 (proj2 (calculated_hash_computation
            Example.payload Example.secret Example.H
            [(lit "auth_date", lit "100");
             (lit "user", lit "{" ++ [34] ++ lit "id" ++ [34] ++ lit ":1}")] _)
          (lit "s3cr3t") Example.check_string _ _)).
  - vm_compute. reflexivity.
  - vm_compute. reflexivity.
  - vm_compute. reflexivity.
Defined.

(** ** Never an exception *)

Lemma truncated_escape_kept :
  UrlParse.parse_qsl Example.payload_truncated =
  [(lit "a", lit "%7");
   (lit "hash",
    lit "d75c89ddbe24783eb2978ecf504412f38eb4c06e3f095e87bc0990824122d159")].
Proof. vm_compute. reflexivity. Qed.

(** A payload with a cut percent-escape that is valid: the escape is kept
    as it stands and the signature is the one of the line [a=%7]. *)
Lemma truncated_escape_valid :
  well_escaped Example.payload_truncated = false /\
  validate_init_data Example.payload_truncated Example.secret = Return true.
Proof. split; vm_compute; reflexivity. Qed.

(** C2, amended: [validate_init_data] never raises: it returns valid or
    invalid, and every exception raised inside its [try] block is an
    [Exception], is logged, and is turned into invalid.  A malformed
    percent-escape or an undecodable byte is no error of the parser, and
    the payload is then judged by its signature as any other. *)
Theorem validate_init_data_never_raises (init_data bot_token : str) :
  (validate_init_data init_data bot_token = Return true \/
   validate_init_data init_data bot_token = Return false)
  /\ (forall e, validate_init_data_try init_data bot_token = Raise e ->
        is_Exception e = true /\
        validate_init_data_run init_data bot_token
          = ([ValidationError e], Return false))
  /\ validate_init_data init_data bot_token
       = Return (Spec.verify init_data bot_token).
Proof.
  split; [|split].
  - rewrite validate_init_data_spec.
    destruct (Spec.verify init_data bot_token); auto.
  - intros e H. unfold validate_init_data_run. rewrite H.
    destruct (validate_init_data_try_raises _ _ _ H) as [-> | ->];
      split; reflexivity.
  - apply validate_init_data_spec.
Qed.

Lemma validate_init_data_never_raises_witness :
  is_Exception UnicodeEncodeError = true /\
  validate_init_data_run Example.payload [0xDC80]
    = ([ValidationError UnicodeEncodeError], Return false).
Proof.
  apply (proj1 (proj2 (validate_init_data_never_raises Example.payload [0xDC80]))).
  vm_compute. reflexivity.
Defined.

(** ** Determinism and the order of the pairs *)

Lemma check_string_perm (l1 l2 : list (str * str)) :
  NoDup (keys l1) -> Permutation l1 l2 ->
  Spec.check_string l1 = Spec.check_string l2.
Proof.
  intros ND HP. unfold Spec.check_string.
  assert (NoDup (keys l2)) as ND2
    by (eapply Permutation_NoDup; [|exact ND]; now apply Permutation_map).
  rewrite <- !sorted_eq_sort_by_key by assumption.
  now rewrite (sorted_perm_eq _ _ HP).
Qed.

Lemma NoDup_remaining_fields (p : str) : NoDup (keys (Spec.remaining_fields p)).
Proof. apply NoDup_keys_filter, NoDup_keep_last. Qed.

(** Payloads that give every key the same value verify alike. *)
Lemma same_fields_same_result (p1 p2 bot_token : str) :
  (forall k, Spec.lookup k (Spec.fields p1) = Spec.lookup k (Spec.fields p2)) ->
  validate_init_data p1 bot_token = validate_init_data p2 bot_token.
Proof.
  intro H. rewrite !validate_init_data_spec. f_equal.
  unfold Spec.verify, Spec.hash_field. rewrite (H Spec.hash_key).
  assert (Spec.check_string (Spec.remaining_fields p1) =
          Spec.check_string (Spec.remaining_fields p2)) as E.
  { apply check_string_perm; [apply NoDup_remaining_fields|].
    apply same_lookup_perm; try apply NoDup_remaining_fields.
    intro k. unfold Spec.remaining_fields.
    now rewrite !lookup_without_hash, H. }
  unfold Spec.candidate_signature. now rewrite E.
Qed.

Lemma lookup_perm (l1 l2 : list (str * str)) (k : str) :
  NoDup (keys l1) -> Permutation l1 l2 -> Spec.lookup k l1 = Spec.lookup k l2.
Proof.
  intros ND HP.
  assert (NoDup (keys l2)) as ND2
    by (eapply Permutation_NoDup; [|exact ND]; now apply Permutation_map).
  destruct (Spec.lookup k l1) as [v|] eqn:E1.
  - apply lookup_in in E1; [|exact ND]. symmetry. apply lookup_in; [exact ND2|].
    eapply Permutation_in; eassumption.
  - destruct (Spec.lookup k l2) as [v|] eqn:E2; [|reflexivity].
    apply lookup_in in E2; [|exact ND2].
    apply (Permutation_in _ (Permutation_sym HP)) in E2.
    apply lookup_in in E2; [|exact ND]. congruence.
Qed.

(** The same pairs in two orders, with a repeated key: one payload is
    valid, the other is not. *)
Lemma reordered_repeated_key_differs :
  Permutation (UrlParse.parse_qsl Example.payload_repeated)
              (UrlParse.parse_qsl Example.payload_repeated_swapped) /\
  Spec.hash_field Example.payload_repeated
    = Spec.hash_field Example.payload_repeated_swapped /\
  validate_init_data Example.payload_repeated Example.secret = Return true /\
  validate_init_data Example.payload_repeated_swapped Example.secret
    = Return false.
Proof.
  split; [|split; [|split]]; try (vm_compute; reflexivity).
  vm_compute. apply perm_swap.
Qed.

(** C6, amended: [validate_init_data] is deterministic: two calls with the
    same payload and secret give the same result; and two payloads whose
    pairs are the same in different orders, no key being repeated, give the
    same result. *)
Theorem validate_init_data_deterministic (p1 p2 bot_token : str) :
  (forall r1 r2,
      r1 = validate_init_data p1 bot_token ->
      r2 = validate_init_data p1 bot_token -> r1 = r2)
  /\ (Permutation (UrlParse.parse_qsl p1) (UrlParse.parse_qsl p2) ->
      NoDup (keys (UrlParse.parse_qsl p1)) ->
      validate_init_data p1 bot_token = validate_init_data p2 bot_token).
Proof.
  split; [congruence|].
  intros HP ND. apply same_fields_same_result. intro k.
  assert (NoDup (keys (UrlParse.parse_qsl p2))) as ND2
    by (eapply Permutation_NoDup; [|exact ND]; now apply Permutation_map).
  unfold Spec.fields. rewrite !keep_last_NoDup by assumption.
  now apply lookup_perm.
Qed.

Lemma validate_init_data_deterministic_witness :
  validate_init_data Example.payload Example.secret
  = validate_init_data Example.payload_reordered Example.secret.
Proof.
  apply (proj2 (validate_init_data_deterministic
                  Example.payload Example.payload_reordered Example.secret)).
  - vm_compute.
    eapply perm_trans; [apply perm_skip, perm_swap|].
    eapply perm_trans; [apply perm_swap|].
    apply perm_skip, perm_swap.
  - vm_compute. repeat constructor; simpl; intuition discriminate.
Defined.

(** ** Changes to a valid payload *)

Lemma invalid_of_not_valid (p bot_token : str) :
  validate_init_data p bot_token <> Return true ->
  validate_init_data p bot_token = Return false.
Proof.
  intro H. now destruct (valid_or_invalid p bot_token).
Qed.

Lemma valid_signature (p bot_token : str) :
  validate_init_data p bot_token = Return true ->
  exists signature,
    Spec.hash_field p = Some signature /\
    Spec.candidate_signature bot_token (Spec.remaining_fields p)
      = Some signature.
Proof.
  rewrite validate_init_data_spec. unfold Spec.verify.
  destruct (Spec.hash_field p) as [h|]; [|discriminate].
  destruct (Spec.candidate_signature _ _) as [c|]; [|discriminate].
  intro H. injection H as H. apply str_eqb_eq in H. subst. eauto.
Qed.


Lemma Some_eq_inv {A : Type} (x y : A) : Some x = Some y -> x = y.
Proof. intro H. now injection H. Qed.

(** A signature is a string of 64 lowercase hexadecimal digits. *)
Lemma candidate_signature_lower (bot_token : str) (l : list (str * str))
      (signature : str) :
  Spec.candidate_signature bot_token l = Some signature ->
  forallb is_lower_hex signature = true /\ length signature = 64%nat.
Proof.
  unfold Spec.candidate_signature.
  destruct (UTF8.encode_opt bot_token) as [tb|]; [|discriminate].
  destruct (UTF8.encode_opt _) as [cb|]; [|discriminate].
  intro H. apply Some_eq_inv in H. rewrite <- H. split.
  - apply hex_lower, hmac_digest_range.
  - apply (hexdigest_length (Spec.secondary_secret tb) cb).
Qed.



(** ** Repeated keys *)

Lemma keep_last_idempotent (l : list (str * str)) :
  Spec.keep_last (Spec.keep_last l) = Spec.keep_last l.
Proof. apply keep_last_NoDup, NoDup_keep_last. Qed.

Lemma split_not_nil (sep : Z) (s : list Z) : split sep s <> [].
Proof.
  destruct s as [|c s]; cbn [split]; [discriminate|].
  destruct (c =? sep); [discriminate|].
  destruct (split sep s); discriminate.
Qed.

Lemma split_no_sep (sep : Z) (s : list Z) :
  Forall (fun f => ~ In sep f) (split sep s).
Proof.
  induction s as [|c s IH]; cbn [split].
  - constructor; [intros []|constructor].
  - destruct (c =? sep) eqn:E.
    + constructor; [intros []|exact IH].
    + destruct (split sep s) as [|x xs]; [repeat constructor|].
      * intros [H|[]]. apply Z.eqb_neq in E. congruence.
      * inversion IH as [|? ? Hx Hxs]; subst. constructor; [|exact Hxs].
        intros [H|H]; [|contradiction].
        apply Z.eqb_neq in E. congruence.
Qed.

Lemma split_app (sep : Z) (x rest : list Z) :
  ~ In sep x -> split sep (x ++ sep :: rest) = x :: split sep rest.
Proof.
  induction x as [|c x IH]; intro H; cbn [app split].
  - now rewrite Z.eqb_refl.
  - destruct (c =? sep) eqn:E.
    + apply Z.eqb_eq in E. exfalso. apply H. now left.
    + rewrite IH; [reflexivity|]. intro Hin. apply H. now right.
Qed.

Lemma split_id (sep : Z) (x : list Z) : ~ In sep x -> split sep x = [x].
Proof.
  induction x as [|c x IH]; intro H; cbn [split]; [reflexivity|].
  destruct (c =? sep) eqn:E.
  - apply Z.eqb_eq in E. exfalso. apply H. now left.
  - rewrite IH; [reflexivity|]. intro Hin. apply H. now right.
Qed.

Lemma split_join (sep : Z) (fs : list (list Z)) :
  fs <> [] -> Forall (fun f => ~ In sep f) fs ->
  split sep (join [sep] fs) = fs.
Proof.
  induction fs as [|x fs IH]; intros Hne HF; [contradiction|].
  inversion HF as [|? ? Hx HF']; subst.
  destruct fs as [|y fs]; cbn [join].
  - now apply split_id.
  - cbn [app]. rewrite split_app by exact Hx.
    f_equal. apply IH; [discriminate|exact HF'].
Qed.

(** [parse_qsl] works field by field. *)
Lemma parse_qsl_split (qs : str) :
  UrlParse.parse_qsl qs
  = flat_map UrlParse.parse_field (split UrlParse.amp qs).
Proof. destruct qs; reflexivity. Qed.

Lemma parse_qsl_join (fs : list str) :
  Forall (fun f => ~ In UrlParse.amp f) fs ->
  UrlParse.parse_qsl (join [UrlParse.amp] fs)
  = flat_map UrlParse.parse_field fs.
Proof.
  intro HF. destruct fs as [|x fs]; [reflexivity|].
  rewrite parse_qsl_split, split_join; [reflexivity|discriminate|exact HF].
Qed.

Lemma parse_field_cases (name_value : str) :
  UrlParse.parse_field name_value = [] \/
  exists kv, UrlParse.parse_field name_value = [kv].
Proof.
  unfold UrlParse.parse_field.
  destruct name_value as [|c r]; [now left|].
  destruct (split1 UrlParse.equals (c :: r)) as [|n [|v [|w t]]];
    try (now left).
  destruct v; [now left|right; eauto].
Qed.

Lemma drop_shadowed_Forall (P : str -> Prop) (fs : list str) :
  Forall P fs -> Forall P (drop_shadowed fs).
Proof.
  induction 1 as [|f fs Hf HF IH]; cbn [drop_shadowed]; [constructor|].
  destruct (shadowed f fs); [exact IH|now constructor].
Qed.

Lemma flat_map_drop_shadowed (fs : list str) :
  flat_map UrlParse.parse_field (drop_shadowed fs)
  = Spec.keep_last (flat_map UrlParse.parse_field fs).
Proof.
  induction fs as [|f fs IH]; [reflexivity|].
  cbn [drop_shadowed flat_map]. unfold shadowed.
  destruct (parse_field_cases f) as [E|[kv E]]; rewrite E; cbn [app].
  - cbn [flat_map]. now rewrite E.
  - cbn [Spec.keep_last].
    destruct (Spec.has_key (fst kv) (flat_map UrlParse.parse_field fs));
      [exact IH|].
    cbn [flat_map]. rewrite E. cbn [app]. now rewrite IH.
Qed.

(** The pairs of the payload without its shadowed fields are the last
    occurrences of the pairs of the payload. *)
Lemma parse_qsl_remove_shadowed (init_data : str) :
  UrlParse.parse_qsl (remove_shadowed init_data)
  = Spec.keep_last (UrlParse.parse_qsl init_data).
Proof.
  unfold remove_shadowed.
  rewrite parse_qsl_join by apply drop_shadowed_Forall, split_no_sep.
  now rewrite flat_map_drop_shadowed, parse_qsl_split.
Qed.

(** C9: of the pairs of a payload with the same key only the last one
    enters the check-string (and gives the [hash] value), and the payload
    verifies as every payload whose pairs are the last occurrences alone,
    among them the payload with the shadowed fields removed. *)
Theorem only_last_occurrence_counts (init_data bot_token : str) :
  (forall received_hash parsed_data,
      dict_pop (dict_of_pairs (UrlParse.parse_qsl init_data)) (lit "hash")
        = Return (received_hash, parsed_data) ->
      Spec.lookup (lit "hash") (Spec.keep_last (UrlParse.parse_qsl init_data))
        = Some received_hash /\
      data_check_string parsed_data
        = Spec.check_string
            (Spec.without_hash (Spec.keep_last (UrlParse.parse_qsl init_data))))
  /\ (forall init_data',
        UrlParse.parse_qsl init_data'
          = Spec.keep_last (UrlParse.parse_qsl init_data) ->
        validate_init_data init_data' bot_token
          = validate_init_data init_data bot_token)
  /\ UrlParse.parse_qsl (remove_shadowed init_data)
       = Spec.keep_last (UrlParse.parse_qsl init_data)
  /\ validate_init_data (remove_shadowed init_data) bot_token
       = validate_init_data init_data bot_token.
Proof.
  assert (forall init_data',
        UrlParse.parse_qsl init_data'
          = Spec.keep_last (UrlParse.parse_qsl init_data) ->
        validate_init_data init_data' bot_token
          = validate_init_data init_data bot_token) as Hsame.
  { intros init_data' H. apply same_fields_same_result. intro k.
    unfold Spec.fields. now rewrite H, keep_last_idempotent. }
  split; [|split; [exact Hsame|split]].
  - intros received_hash parsed_data H.
    destruct (dict_pop_parsed _ _ _ H) as [Hh ->].
    split; [exact Hh|apply data_check_string_spec].
  - apply parse_qsl_remove_shadowed.
  - apply Hsame, parse_qsl_remove_shadowed.
Qed.

Lemma remove_shadowed_example :
  remove_shadowed Example.payload_repeated = Example.payload_last_only.
Proof. vm_compute. reflexivity. Qed.

Lemma only_last_occurrence_counts_witness :
  validate_init_data Example.payload_last_only Example.secret
  = validate_init_data Example.payload_repeated Example.secret.
Proof.
  apply (proj1 (proj2 (only_last_occurrence_counts
                         Example.payload_repeated Example.secret))).
  vm_compute. reflexivity.
Defined.

(** ** The case of the hexadecimal digits *)

Lemma upper_not_lower_hex (h : str) :
  existsb is_hex_letter h = true ->
  forallb is_lower_hex (ascii_upper h) = false.
Proof.
  induction h as [|c h IH]; [discriminate|].
  cbn [existsb ascii_upper map forallb]. intro H.
  apply orb_true_iff in H as [H|H].
  - unfold is_hex_letter in H. apply andb_true_iff in H as [H1 H2].
    apply Z.leb_le in H1, H2.
    assert ((97 <=? c) && (c <=? 122) = true) as ->
      by (apply andb_true_iff; split; apply Z.leb_le; lia).
    apply andb_false_iff. left. unfold is_lower_hex.
    apply orb_false_iff. split; apply andb_false_iff.
    + right. apply Z.leb_gt. lia.
    + left. apply Z.leb_gt. lia.
  - apply andb_false_iff. right. now apply IH.
Qed.

(** A [hash] value in capitals never equals a signature. *)
Lemma upper_hash_invalid (p bot_token h : str) :
  existsb is_hex_letter h = true ->
  Spec.hash_field p = Some (ascii_upper h) ->
  validate_init_data p bot_token = Return false.
Proof.
  intros Hl Hh. apply invalid_of_not_valid. intro Hv.
  destruct (valid_signature _ _ Hv) as [sg [Hh' Hc]].
  apply candidate_signature_lower in Hc as [Hc _].
  assert (sg = ascii_upper h) as -> by congruence.
  rewrite (upper_not_lower_hex h Hl) in Hc. discriminate.
Qed.

(** C10: the comparison is case-sensitive: for a payload that carries the
    signature computed over its fields, when this signature has a letter
    among its digits the payload with the [hash] value put in capitals is
    invalid. *)
Theorem uppercase_hash_invalid (p p' bot_token signature : str) :
  Spec.candidate_signature bot_token (Spec.remaining_fields p)
    = Some signature ->
  Spec.hash_field p = Some signature ->
  existsb is_hex_letter signature = true ->
  Spec.hash_field p' = Some (ascii_upper signature) ->
  Spec.remaining_fields p' = Spec.remaining_fields p ->
  validate_init_data p bot_token = Return true /\
  validate_init_data p' bot_token = Return false.
Proof.
  intros Hc Hh Hl Hh' _. split.
  - now apply (valid_of_signature p bot_token signature).
  - now apply (upper_hash_invalid p' bot_token signature).
Qed.

Lemma uppercase_hash_invalid_witness :
  validate_init_data Example.payload Example.secret = Return true /\
  validate_init_data Example.payload_upper Example.secret = Return false.
Proof.
  apply (uppercase_hash_invalid Example.payload Example.payload_upper
           Example.secret Example.H); vm_compute; reflexivity.
Defined.

(** ** The final comparison *)

(** [compare_digest] answers true on two strings exactly when they are the
    same string of ASCII characters; on a string with another character it
    raises [TypeError]. *)
Lemma compare_digest_true_iff (a b : str) :
  compare_digest a b = Return true <->
  a = b /\ forallb UrlParse.is_ascii a = true.
Proof.
  unfold compare_digest.
  destruct (forallb UrlParse.is_ascii a) eqn:Ea;
    destruct (forallb UrlParse.is_ascii b) eqn:Eb; cbn [andb]; split;
    try discriminate.
  - intro H. injection H as H. apply tscmp_true_iff in H. now split.
  - intros [-> _]. f_equal. now apply tscmp_true_iff.
  - intros [-> _]. congruence.
  - intros [_ H]. discriminate.
  - intros [_ H]. discriminate.
Qed.

(** ** The contract of the verifier, and how the payload is read *)

(** The loop body of [parse_qsl] in the words of the conventions. *)
Lemma parse_field_by_convention (field : str) :
  UrlParse.parse_field field
  = if Literal.has_value (Literal.cut field)
    then [Literal.plus_decoded (Literal.cut field)] else [].
Proof.
  unfold UrlParse.parse_field, Literal.cut, Literal.has_value,
    Literal.plus_decoded, Literal.percent_decoded.
  destruct field as [|c r].
  - reflexivity.
  - destruct (split1 UrlParse.equals (c :: r)) as [|n [|v [|w t]]];
      try reflexivity.
    destruct v; reflexivity.
Qed.

Lemma parse_fields_by_convention (fs : list str) :
  flat_map UrlParse.parse_field fs
  = map Literal.plus_decoded (filter Literal.has_value (map Literal.cut fs)).
Proof.
  induction fs as [|f fs IH]; [reflexivity|].
  cbn [flat_map map filter]. rewrite IH, parse_field_by_convention.
  now destruct (Literal.has_value (Literal.cut f)).
Qed.

Lemma fields_by_convention (payload : str) :
  Spec.fields payload = Literal.by_convention payload.
Proof.
  unfold Spec.fields, Literal.by_convention, Literal.raw_pairs.
  now rewrite parse_qsl_split, parse_fields_by_convention.
Qed.

Lemma replace_absent (old new : Z) (s : str) :
  contains old s = false -> replace old new s = s.
Proof.
  unfold contains, replace. induction s as [|c s IH]; [reflexivity|].
  cbn [existsb map]. intro H. apply orb_false_iff in H as [Hc Hs].
  rewrite (IH Hs). rewrite Z.eqb_sym in Hc. now rewrite Hc.
Qed.

Lemma distinct_keys_keep_last (l : list (str * str)) :
  Literal.distinct_keys l = true -> Spec.keep_last l = l.
Proof.
  induction l as [|kv l IH]; [reflexivity|].
  cbn [Literal.distinct_keys Spec.keep_last]. intro H.
  apply andb_true_iff in H as [Hk Hl]. apply negb_true_iff in Hk.
  now rewrite Hk, (IH Hl).
Qed.

Lemma regular_raw_pairs (l : list (str * str)) :
  forallb (fun kv => Literal.has_value kv
                     && negb (contains UrlParse.plus (fst kv))
                     && negb (contains UrlParse.plus (snd kv))) l = true ->
  map Literal.plus_decoded (filter Literal.has_value l)
  = map Literal.percent_decoded l.
Proof.
  induction l as [|kv l IH]; [reflexivity|].
  cbn [forallb filter map]. intro H.
  apply andb_true_iff in H as [Hkv Hl].
  apply andb_true_iff in Hkv as [Hkv Hv].
  apply andb_true_iff in Hkv as [Hh Hk].
  apply negb_true_iff in Hk, Hv.
  rewrite Hh. cbn [map]. rewrite (IH Hl). f_equal.
  unfold Literal.plus_decoded. cbn [fst snd].
  now rewrite !replace_absent by assumption.
Qed.

Lemma regular_fields (payload : str) :
  Literal.regular payload = true ->
  Spec.fields payload = Literal.pairs payload.
Proof.
  unfold Literal.regular. intro H. apply andb_true_iff in H as [Hr Hd].
  rewrite fields_by_convention. unfold Literal.by_convention.
  rewrite (regular_raw_pairs _ Hr). fold (Literal.pairs payload).
  now apply distinct_keys_keep_last.
Qed.

(** The field [a=] of the payload [a=&b=1&hash=...] is a pair of the
    payload read literally, and the verifier leaves it out: the payload
    that carries the signature of its two fields [a=] and [b=1] is
    invalid, and the payload that carries the signature of [b=1] alone
    is valid. *)
Lemma blank_value_left_out :
  Literal.hash_field BlankValue.payload_signed_both
    = Some BlankValue.signature_of_both
  /\ Literal.remaining_fields BlankValue.payload_signed_both
     = [(lit "a", []); (lit "b", lit "1")]
  /\ Spec.candidate_signature BlankValue.secret
       (Literal.remaining_fields BlankValue.payload_signed_both)
     = Some BlankValue.signature_of_both
  /\ validate_init_data BlankValue.payload_signed_both BlankValue.secret
     = Return false
  /\ Literal.hash_field BlankValue.payload_signed_second
     = Some BlankValue.signature_of_second
  /\ Spec.candidate_signature BlankValue.secret
       (Literal.remaining_fields BlankValue.payload_signed_second)
     = Some BlankValue.signature_of_both
  /\ BlankValue.signature_of_both <> BlankValue.signature_of_second
  /\ validate_init_data BlankValue.payload_signed_second BlankValue.secret
     = Return true.
Proof.
  split; [|split; [|split; [|split; [|split; [|split; [|split]]]]]];
    try (vm_compute; reflexivity).
  vm_compute. discriminate.
Qed.

(** C1, amended: for every payload and every secret,
    [validate_init_data] returns valid if and only if the payload has a
    field [hash] whose value is the signature recomputed with the secret,
    by the two-stage HMAC-SHA256 scheme of section 4.1, from the remaining
    fields of the payload as the parser reads them; in every other case
    it returns invalid.  The parser cuts the payload at every [&] and
    every field at its first [=], leaves out a field that has nothing
    behind its first [=] or has no [=], reads a plus sign as a space,
    decodes the percent-escapes, and of the fields with one key lets the
    last one count.  On a payload in which every field has a value, there
    is no plus sign and no key comes twice, these are the percent-decoded
    [key=value] pairs of the payload. *)
Theorem validate_init_data_valid_iff (init_data bot_token : str) :
  (validate_init_data init_data bot_token = Return true <->
   exists signature,
     Spec.hash_field init_data = Some signature /\
     Spec.candidate_signature bot_token (Spec.remaining_fields init_data)
       = Some signature)
  /\ (validate_init_data init_data bot_token = Return true \/
      validate_init_data init_data bot_token = Return false)
  /\ Spec.fields init_data
     = Spec.keep_last
         (map Literal.plus_decoded
            (filter Literal.has_value
               (map Literal.cut (split UrlParse.amp init_data))))
  /\ (Literal.regular init_data = true ->
      Spec.fields init_data = Literal.pairs init_data /\
      (validate_init_data init_data bot_token = Return true <->
       exists signature,
         Literal.hash_field init_data = Some signature /\
         Spec.candidate_signature bot_token
           (Literal.remaining_fields init_data) = Some signature)).
Proof.
  assert (validate_init_data init_data bot_token = Return true <->
          exists signature,
            Spec.hash_field init_data = Some signature /\
            Spec.candidate_signature bot_token
              (Spec.remaining_fields init_data) = Some signature) as Hiff.
  { split.
    - apply valid_signature.
    - intros [sg [Hh Hc]]. now apply (valid_of_signature _ _ sg). }
  split; [exact Hiff|]. split; [apply valid_or_invalid|].
  split; [apply fields_by_convention|].
  intro Hr. pose proof (regular_fields init_data Hr) as Hf.
  split; [exact Hf|].
  unfold Literal.hash_field, Literal.remaining_fields. rewrite <- Hf.
  exact Hiff.
Qed.

Lemma validate_init_data_valid_iff_witness :
  Literal.regular Example.payload = true
  /\ validate_init_data Example.payload Example.secret = Return true.
Proof.
  assert (Literal.regular Example.payload = true) as Hr
    by (vm_compute; reflexivity).
  split; [exact Hr|].
  apply (proj2 (proj2 (proj2 (proj2 (validate_init_data_valid_iff
                                       Example.payload Example.secret)))
                      Hr)).
  exists Example.H. split; vm_compute; reflexivity.
Defined.

(** * Further properties of the verifier *)

(** ** The payload is read field by field *)

Lemma validate_init_data_parse (p p' bot_token : str) :
  UrlParse.parse_qsl p = UrlParse.parse_qsl p' ->
  validate_init_data_run p bot_token = validate_init_data_run p' bot_token.
Proof.
  intro H. unfold validate_init_data_run, validate_init_data_try.
  now rewrite H.
Qed.

Lemma split_app_sep (sep : Z) (a b : list Z) :
  split sep (a ++ sep :: b) = split sep a ++ split sep b.
Proof.
  induction a as [|c a IH]; cbn [app split].
  - now rewrite Z.eqb_refl.
  - destruct (c =? sep); [now rewrite IH|].
    rewrite IH. pose proof (split_not_nil sep a) as Hne.
    destruct (split sep a) as [|x xs]; [contradiction|reflexivity].
Qed.

Lemma parse_qsl_joined (a b : str) :
  UrlParse.parse_qsl (a ++ UrlParse.amp :: b)
  = UrlParse.parse_qsl a ++ UrlParse.parse_qsl b.
Proof.
  rewrite !parse_qsl_split, split_app_sep. apply flat_map_app.
Qed.

(** X1: the pairs of two payloads joined by [&] are the pairs of the first
    followed by the pairs of the second. *)
Theorem parse_qsl_app (a b : str) :
  UrlParse.parse_qsl (a ++ UrlParse.amp :: b)
  = UrlParse.parse_qsl a ++ UrlParse.parse_qsl b.
Proof. apply parse_qsl_joined. Qed.

(** ** Plus signs and spaces *)

Lemma split_map (f : Z -> Z) (sep : Z) (s : list Z) :
  (forall c, (f c =? sep) = (c =? sep)) ->
  split sep (map f s) = map (map f) (split sep s).
Proof.
  intro Hf. induction s as [|c s IH]; [reflexivity|].
  cbn [map split]. rewrite Hf, IH.
  destruct (c =? sep); [reflexivity|].
  pose proof (split_not_nil sep s) as Hne.
  destruct (split sep s) as [|x xs]; [contradiction|reflexivity].
Qed.

Lemma split1_not_nil (sep : Z) (s : list Z) : split1 sep s <> [].
Proof.
  destruct s as [|c s]; cbn [split1]; [discriminate|].
  destruct (c =? sep); [discriminate|].
  destruct (split1 sep s); discriminate.
Qed.

Lemma split1_map (f : Z -> Z) (sep : Z) (s : list Z) :
  (forall c, (f c =? sep) = (c =? sep)) ->
  split1 sep (map f s) = map (map f) (split1 sep s).
Proof.
  intro Hf. induction s as [|c s IH]; [reflexivity|].
  cbn [map split1]. rewrite Hf, IH.
  destruct (c =? sep); [reflexivity|].
  pose proof (split1_not_nil sep s) as Hne.
  destruct (split1 sep s) as [|x xs]; [contradiction|reflexivity].
Qed.

Lemma replace_plus_keeps (sep : Z) (c : Z) :
  sep <> UrlParse.plus -> sep <> UrlParse.space ->
  ((if c =? UrlParse.plus then UrlParse.space else c) =? sep) = (c =? sep).
Proof.
  intros H1 H2. destruct (c =? UrlParse.plus) eqn:E; [|reflexivity].
  apply Z.eqb_eq in E. subst.
  transitivity false; [|symmetry]; apply Z.eqb_neq; congruence.
Qed.

Lemma replace_plus_idempotent (s : str) :
  replace UrlParse.plus UrlParse.space (replace UrlParse.plus UrlParse.space s)
  = replace UrlParse.plus UrlParse.space s.
Proof.
  unfold replace. rewrite map_map. apply map_ext. intro c.
  destruct (c =? UrlParse.plus) eqn:E; [reflexivity|now rewrite E].
Qed.

Lemma parse_field_replace_plus (name_value : str) :
  UrlParse.parse_field (replace UrlParse.plus UrlParse.space name_value)
  = UrlParse.parse_field name_value.
Proof.
  unfold UrlParse.parse_field.
  destruct name_value as [|c r]; [reflexivity|].
  change (replace UrlParse.plus UrlParse.space (c :: r))
    with ((if c =? UrlParse.plus then UrlParse.space else c)
          :: replace UrlParse.plus UrlParse.space r) at 1.
  cbv iota.
  change ((if c =? UrlParse.plus then UrlParse.space else c)
          :: replace UrlParse.plus UrlParse.space r)
    with (replace UrlParse.plus UrlParse.space (c :: r)).
  unfold replace at 1.
  rewrite split1_map
    by (intro x; apply replace_plus_keeps; discriminate).
  destruct (split1 UrlParse.equals (c :: r)) as [|n [|v [|w t]]];
    try reflexivity.
  cbn [map]. destruct v as [|d v]; [reflexivity|].
  cbn [map]. fold (replace UrlParse.plus UrlParse.space n).
  change ((if d =? UrlParse.plus then UrlParse.space else d)
          :: map (fun c0 => if c0 =? UrlParse.plus then UrlParse.space else c0) v)
    with (replace UrlParse.plus UrlParse.space (d :: v)).
  now rewrite !replace_plus_idempotent.
Qed.

(** X2: a plus sign of the payload is read as a space: the payload with
    every plus sign replaced by a space has the same pairs, hence the same
    verdict and the same log. *)
Theorem plus_is_space (init_data bot_token : str) :
  UrlParse.parse_qsl (replace UrlParse.plus UrlParse.space init_data)
    = UrlParse.parse_qsl init_data
  /\ validate_init_data_run
       (replace UrlParse.plus UrlParse.space init_data) bot_token
     = validate_init_data_run init_data bot_token.
Proof.
  assert (UrlParse.parse_qsl (replace UrlParse.plus UrlParse.space init_data)
          = UrlParse.parse_qsl init_data) as H.
  { rewrite !parse_qsl_split. unfold replace at 1.
    rewrite split_map by (intro x; apply replace_plus_keeps; discriminate).
    rewrite flat_map_concat_map, map_map, <- flat_map_concat_map.
    apply flat_map_ext. intro f. apply parse_field_replace_plus. }
  split; [exact H|now apply validate_init_data_parse].
Qed.

(** ** Fields that give no pair *)

Lemma split1_no_sep (sep : Z) (s : list Z) :
  ~ In sep s -> split1 sep s = [s].
Proof.
  induction s as [|c s IH]; intro H; cbn [split1]; [reflexivity|].
  destruct (c =? sep) eqn:E.
  - apply Z.eqb_eq in E. exfalso. apply H. now left.
  - rewrite IH; [reflexivity|]. intro Hin. apply H. now right.
Qed.

Lemma split1_at_sep (sep : Z) (name rest : list Z) :
  ~ In sep name -> split1 sep (name ++ sep :: rest) = [name; rest].
Proof.
  induction name as [|c name IH]; intro H; cbn [app split1].
  - now rewrite Z.eqb_refl.
  - destruct (c =? sep) eqn:E.
    + apply Z.eqb_eq in E. exfalso. apply H. now left.
    + rewrite IH; [reflexivity|]. intro Hin. apply H. now right.
Qed.

Lemma parse_field_no_equals (f : str) :
  ~ In UrlParse.equals f -> UrlParse.parse_field f = [].
Proof.
  intro H. unfold UrlParse.parse_field. destruct f; [reflexivity|].
  now rewrite split1_no_sep.
Qed.

Lemma parse_field_blank_value (name : str) :
  ~ In UrlParse.equals name ->
  UrlParse.parse_field (name ++ [UrlParse.equals]) = [].
Proof.
  intro H. unfold UrlParse.parse_field.
  rewrite split1_at_sep by exact H.
  destruct (name ++ [UrlParse.equals]); reflexivity.
Qed.

(** X3: a field without [=], and a field with nothing behind its [=], give
    no pair: the payload with such a field between two others is judged
    as the payload without it (and logs the same). *)
Theorem blank_field_ignored (a f b bot_token : str) :
  ~ In UrlParse.amp f ->
  (~ In UrlParse.equals f \/
   exists name, ~ In UrlParse.equals name /\ f = name ++ [UrlParse.equals]) ->
  UrlParse.parse_qsl (a ++ UrlParse.amp :: f ++ UrlParse.amp :: b)
    = UrlParse.parse_qsl (a ++ UrlParse.amp :: b)
  /\ validate_init_data_run (a ++ UrlParse.amp :: f ++ UrlParse.amp :: b) bot_token
     = validate_init_data_run (a ++ UrlParse.amp :: b) bot_token.
Proof.
  intros Hamp Hf.
  assert (UrlParse.parse_field f = []) as E.
  { destruct Hf as [Hf|[name [Hn ->]]];
      [now apply parse_field_no_equals|now apply parse_field_blank_value]. }
  assert (UrlParse.parse_qsl (a ++ UrlParse.amp :: f ++ UrlParse.amp :: b)
          = UrlParse.parse_qsl (a ++ UrlParse.amp :: b)) as H.
  { rewrite !parse_qsl_joined. f_equal.
    rewrite (parse_qsl_split f), split_id by exact Hamp.
    cbn [flat_map]. now rewrite E. }
  split; [exact H|now apply validate_init_data_parse].
Qed.

Lemma blank_field_ignored_witness :
  validate_init_data_run (lit "a=1" ++ UrlParse.amp :: lit "flag" ++ UrlParse.amp
                            :: lit "b=2&hash=xyz") Example.secret
  = validate_init_data_run (lit "a=1" ++ UrlParse.amp :: lit "b=2&hash=xyz")
                           Example.secret.
Proof.
  apply (blank_field_ignored (lit "a=1") (lit "flag") (lit "b=2&hash=xyz")).
  - vm_compute. intuition discriminate.
  - left. vm_compute. intuition discriminate.
Defined.

(** ** The shape of an accepted signature *)

(** X4: a payload is valid only if its [hash] value is a string of exactly
    64 lowercase hexadecimal digits. *)
Theorem valid_hash_is_64_lower_hex (init_data bot_token : str) :
  validate_init_data init_data bot_token = Return true ->
  exists h,
    Spec.lookup (lit "hash") (Spec.keep_last (UrlParse.parse_qsl init_data))
      = Some h /\
    length h = 64%nat /\ forallb is_lower_hex h = true.
Proof.
  intro Hv. destruct (valid_signature _ _ Hv) as [h [Hh Hc]].
  exists h. split; [exact Hh|].
  destruct (candidate_signature_lower _ _ _ Hc). now split.
Qed.

Lemma valid_hash_is_64_lower_hex_witness :
  exists h,
    Spec.lookup (lit "hash") (Spec.keep_last (UrlParse.parse_qsl Example.payload))
      = Some h /\
    length h = 64%nat /\ forallb is_lower_hex h = true.
Proof.
  apply (valid_hash_is_64_lower_hex Example.payload Example.secret).
  vm_compute. reflexivity.
Defined.

(** ** What is logged *)

Lemma validate_init_data_run_outcome (init_data bot_token : str) :
  validate_init_data_run init_data bot_token =
  match Spec.hash_field init_data with
  | None => ([], Return false)
  | Some received_hash =>
      match UTF8.encode_opt bot_token,
            UTF8.encode_opt (Spec.check_string (Spec.remaining_fields init_data))
      with
      | Some token_bytes, Some check_bytes =>
          if forallb UrlParse.is_ascii received_hash
          then ([], Return (str_eqb received_hash
                              (calculated_hash (secret_key token_bytes) check_bytes)))
          else ([ValidationError TypeError], Return false)
      | _, _ => ([ValidationError UnicodeEncodeError], Return false)
      end
  end.
Proof.
  unfold validate_init_data_run. rewrite validate_init_data_try_fields.
  destruct (Spec.hash_field init_data) as [h|]; [|reflexivity].
  unfold UTF8.encode.
  destruct (UTF8.encode_opt bot_token) as [tb|]; cbn [bind]; [|reflexivity].
  destruct (UTF8.encode_opt _) as [cb|]; cbn [bind]; [|reflexivity].
  unfold compare_digest, calculated_hash, HMAC.hexdigest.
  rewrite hex_ascii, andb_true_r.
  destruct (forallb UrlParse.is_ascii h); [|reflexivity].
  now rewrite tscmp_str_eqb.
Qed.

(** X5: the outcome and the log of [validate_init_data] in every case.
    Without a [hash] field the payload is invalid and nothing is logged.
    When the secret or the check-string cannot be encoded, a
    [UnicodeEncodeError] is logged; when the [hash] value has a non-ASCII
    character, a [TypeError] is logged; both give invalid.  Otherwise
    nothing is logged and the verdict is the equality of the [hash] value
    and the recomputed signature. *)
Theorem validate_init_data_run_cases (init_data bot_token : str) :
  validate_init_data_run init_data bot_token =
  match Spec.hash_field init_data with
  | None => ([], Return false)
  | Some received_hash =>
      match UTF8.encode_opt bot_token,
            UTF8.encode_opt (Spec.check_string (Spec.remaining_fields init_data))
      with
      | Some token_bytes, Some check_bytes =>
          if forallb UrlParse.is_ascii received_hash
          then ([], Return (str_eqb received_hash
                              (calculated_hash (secret_key token_bytes) check_bytes)))
          else ([ValidationError TypeError], Return false)
      | _, _ => ([ValidationError UnicodeEncodeError], Return false)
      end
  end.
Proof. apply validate_init_data_run_outcome. Qed.

(** ** The dictionary after the [pop] *)

Lemma has_key_without_hash (l : list (str * str)) :
  Spec.has_key Spec.hash_key (Spec.without_hash l) = false.
Proof.
  apply lookup_none. rewrite lookup_without_hash.
  now rewrite str_eqb_refl.
Qed.

(** X6: popping [hash] takes the [hash] value of the last [hash] pair and
    leaves a dictionary without the key [hash], in which every other key
    has the value of its last pair: the signature is no part of the
    check-string. *)
Theorem pop_takes_hash_only (init_data received_hash : str) (parsed_data : dict) :
  dict_pop (dict_of_pairs (UrlParse.parse_qsl init_data)) (lit "hash")
    = Return (received_hash, parsed_data) ->
  dict_contains (lit "hash") parsed_data = false
  /\ NoDup (keys parsed_data)
  /\ Spec.lookup (lit "hash") (Spec.keep_last (UrlParse.parse_qsl init_data))
       = Some received_hash
  /\ forall k, k <> lit "hash" ->
       Spec.lookup k parsed_data
       = Spec.lookup k (Spec.keep_last (UrlParse.parse_qsl init_data)).
Proof.
  intro H. destruct (dict_pop_parsed _ _ _ H) as [Hh ->].
  split; [apply has_key_without_hash|].
  split; [apply NoDup_keys_filter, NoDup_dict_of_pairs|].
  split; [exact Hh|].
  intros k Hk. rewrite lookup_without_hash, lookup_dict_of_pairs.
  apply str_eqb_neq in Hk. unfold Spec.hash_key. now rewrite Hk.
Qed.

Lemma pop_takes_hash_only_witness :
  dict_contains (lit "hash")
    [(lit "auth_date", lit "100");
     (lit "user", lit "{" ++ [34] ++ lit "id" ++ [34] ++ lit ":1}")] = false.
Proof.
  apply (pop_takes_hash_only Example.payload Example.H).
  vm_compute. reflexivity.
Defined.

(** ** Payloads with one check-string *)

Lemma check_string_two_lines (k1 v1 k2 v2 : str) :
  str_ltb k1 k2 = true ->
  Spec.check_string [(k1, v1); (k2, v2)]
  = Spec.check_string [(k1, v1 ++ [10] ++ k2 ++ [61] ++ v2)].
Proof.
  intro H. unfold Spec.check_string, Spec.sort_by_key, sort_by.
  cbn [fold_right insert_by]. unfold Spec.key_ltb at 1. cbn [fst].
  rewrite (str_ltb_asym _ _ H). cbn [map join fst snd].
  now rewrite <- !app_assoc.
Qed.

(** X7: the check-string does not tell two fields from one field whose
    value holds a newline: a payload with the fields [k1=v1] and [k2=v2]
    and a payload with the single field [k1] of value [v1], newline,
    [k2=v2], are judged alike when they carry the same [hash] value. *)
Theorem newline_in_value_ambiguous
    (p p' bot_token k1 v1 k2 v2 : str) :
  str_ltb k1 k2 = true ->
  Spec.hash_field p = Spec.hash_field p' ->
  Permutation (Spec.remaining_fields p) [(k1, v1); (k2, v2)] ->
  Spec.remaining_fields p' = [(k1, v1 ++ [10] ++ k2 ++ [61] ++ v2)] ->
  validate_init_data p bot_token = validate_init_data p' bot_token.
Proof.
  intros Hlt Hh HP Hp'. rewrite !validate_init_data_spec.
  unfold Spec.verify, Spec.candidate_signature.
  rewrite Hh, Hp', <- (check_string_two_lines _ _ _ _ Hlt).
  now rewrite (check_string_perm _ _ (NoDup_remaining_fields p) HP).
Qed.

Lemma newline_in_value_ambiguous_witness :
  validate_init_data MoreExamples.payload_two_fields Example.secret
  = validate_init_data MoreExamples.payload_one_field Example.secret.
Proof.
  apply (newline_in_value_ambiguous _ _ _ (lit "a") (lit "1") (lit "b") (lit "2")).
  - reflexivity.
  - vm_compute. reflexivity.
  - vm_compute. apply Permutation_refl.
  - vm_compute. reflexivity.
Defined.

Lemma newline_in_value_both_valid :
  validate_init_data MoreExamples.payload_two_fields Example.secret = Return true
  /\ validate_init_data MoreExamples.payload_one_field Example.secret = Return true.
Proof. split; vm_compute; reflexivity. Qed.

(** ** UTF-8: bit operations as arithmetic *)

Lemma lor_disjoint (x b n : Z) :
  0 <= n -> x mod 2 ^ n = 0 -> 0 <= b < 2 ^ n -> Z.lor x b = x + b.
Proof.
  intros Hn Hx Hb.
  assert (Z.land x b = 0) as Hl.
  { apply Z.bits_inj'. intros m Hm. rewrite Z.land_spec, Z.bits_0.
    destruct (Z.lt_ge_cases m n) as [Hlt|Hge].
    - rewrite (Z.div_mod x (2 ^ n)) by lia. rewrite Hx, Z.add_0_r.
      rewrite Z.mul_comm, Z.mul_pow2_bits_low by lia. reflexivity.
    - assert (Z.testbit b m = false) as ->; [|apply andb_false_r].
      destruct (Z.eq_dec b 0) as [->|Hb0]; [apply Z.bits_0|].
      apply Z.bits_above_log2; [lia|].
      apply Z.lt_le_trans with n; [|exact Hge].
      apply Z.log2_lt_pow2; lia. }
  rewrite <- Z.lxor_lor by exact Hl. symmetry. now apply Z.add_nocarry_lxor.
Qed.

Lemma land_1F (x : Z) : Z.land x 0x1F = x mod 32.
Proof. change 0x1F with (Z.ones 5). now rewrite Z.land_ones by lia. Qed.

Lemma land_0F (x : Z) : Z.land x 0x0F = x mod 16.
Proof. change 0x0F with (Z.ones 4). now rewrite Z.land_ones by lia. Qed.

Lemma land_07 (x : Z) : Z.land x 0x07 = x mod 8.
Proof. change 0x07 with (Z.ones 3). now rewrite Z.land_ones by lia. Qed.

Lemma land_3F (x : Z) : Z.land x 0x3F = x mod 64.
Proof. change 0x3F with (Z.ones 6). now rewrite Z.land_ones by lia. Qed.

Lemma shiftl_6 (x : Z) : Z.shiftl x 6 = x * 64.
Proof. now rewrite Z.shiftl_mul_pow2 by lia. Qed.

Lemma shiftl_12 (x : Z) : Z.shiftl x 12 = x * 4096.
Proof. now rewrite Z.shiftl_mul_pow2 by lia. Qed.

Lemma shiftl_18 (x : Z) : Z.shiftl x 18 = x * 262144.
Proof. now rewrite Z.shiftl_mul_pow2 by lia. Qed.

Lemma shiftr_6 (x : Z) : Z.shiftr x 6 = x / 64.
Proof. now rewrite Z.shiftr_div_pow2 by lia. Qed.

Lemma shiftr_12 (x : Z) : Z.shiftr x 12 = x / 4096.
Proof. now rewrite Z.shiftr_div_pow2 by lia. Qed.

Lemma shiftr_18 (x : Z) : Z.shiftr x 18 = x / 262144.
Proof. now rewrite Z.shiftr_div_pow2 by lia. Qed.

(** The value of a sequence of two, three and four bytes. *)
Lemma value2 (ch ch2 : Z) :
  Z.lor (Z.shiftl (Z.land ch 0x1F) 6) (Z.land ch2 0x3F)
  = (ch mod 32) * 64 + ch2 mod 64.
Proof.
  rewrite land_1F, land_3F, shiftl_6.
  apply (lor_disjoint _ _ 6); [lia| |]; Z.div_mod_to_equations; lia.
Qed.

Lemma value3 (ch ch2 ch3 : Z) :
  Z.lor (Z.lor (Z.shiftl (Z.land ch 0x0F) 12) (Z.shiftl (Z.land ch2 0x3F) 6))
        (Z.land ch3 0x3F)
  = (ch mod 16) * 4096 + (ch2 mod 64) * 64 + ch3 mod 64.
Proof.
  rewrite land_0F, !land_3F, shiftl_6, shiftl_12.
  rewrite (lor_disjoint (ch mod 16 * 4096) (ch2 mod 64 * 64) 12);
    [|lia| |]; try (Z.div_mod_to_equations; lia).
  apply (lor_disjoint _ _ 6); [lia| |]; Z.div_mod_to_equations; lia.
Qed.

Lemma value4 (ch ch2 ch3 ch4 : Z) :
  Z.lor (Z.lor (Z.lor (Z.shiftl (Z.land ch 0x07) 18)
                      (Z.shiftl (Z.land ch2 0x3F) 12))
               (Z.shiftl (Z.land ch3 0x3F) 6))
        (Z.land ch4 0x3F)
  = (ch mod 8) * 262144 + (ch2 mod 64) * 4096 + (ch3 mod 64) * 64 + ch4 mod 64.
Proof.
  rewrite land_07, !land_3F, shiftl_6, shiftl_12, shiftl_18.
  rewrite (lor_disjoint (ch mod 8 * 262144) (ch2 mod 64 * 4096) 18);
    [|lia| |]; try (Z.div_mod_to_equations; lia).
  rewrite (lor_disjoint (ch mod 8 * 262144 + ch2 mod 64 * 4096)
                        (ch3 mod 64 * 64) 12);
    [|lia| |]; try (Z.div_mod_to_equations; lia).
  apply (lor_disjoint _ _ 6); [lia| |]; Z.div_mod_to_equations; lia.
Qed.

(** The bytes [str.encode()] writes. *)
Lemma trail_byte (x : Z) : Z.lor 0x80 (Z.land x 0x3F) = 128 + x mod 64.
Proof.
  rewrite land_3F.
  apply (lor_disjoint _ _ 7); [lia|reflexivity|].
  Z.div_mod_to_equations; lia.
Qed.

Lemma lead_byte2 (x : Z) : 0 <= x < 32 -> Z.lor 0xC0 x = 192 + x.
Proof. intro H. apply (lor_disjoint _ _ 6); [lia|reflexivity|lia]. Qed.

Lemma lead_byte3 (x : Z) : 0 <= x < 16 -> Z.lor 0xE0 x = 224 + x.
Proof. intro H. apply (lor_disjoint _ _ 5); [lia|reflexivity|lia]. Qed.

Lemma lead_byte4 (x : Z) : 0 <= x < 8 -> Z.lor 0xF0 x = 240 + x.
Proof. intro H. apply (lor_disjoint _ _ 4); [lia|reflexivity|lia]. Qed.

(** ** UTF-8: what the decoder yields *)

Ltac cmp_cases :=
  repeat (match goal with
          | |- context [?a <? ?b] => destruct (Z.ltb_spec a b)
          | |- context [?a <=? ?b] => destruct (Z.leb_spec a b)
          | |- context [?a =? ?b] => destruct (Z.eqb_spec a b)
          end; cbv beta iota delta [negb orb andb]; try lia).

Ltac scalar_value :=
  unfold is_scalar, UTF8.replacement;
  rewrite ?value2, ?value3, ?value4;
  Z.div_mod_to_equations; lia.

Lemma decode_replace_scalar_aux (n : nat) (b : bytes) :
  (length b <= n)%nat -> (forall x, In x b -> is_byte x) ->
  Forall is_scalar (UTF8.decode_replace b).
Proof.
  revert b; induction n as [|n IH]; intros b Hlen Hb.
  - destruct b; [constructor|simpl in Hlen; lia].
  - destruct b as [|ch r1]; [constructor|].
    assert (is_byte ch) as Hch by (apply Hb; now left).
    unfold is_byte in Hch.
    cbn [UTF8.decode_replace]. unfold UTF8.is_continuation.
    repeat first
      [ progress cmp_cases
      | match goal with
        | |- Forall _ (match ?l with [] => _ | _ :: _ => _ end) => destruct l
        | |- Forall _ [] => constructor
        | |- Forall _ (_ :: _) => constructor
        | |- Forall is_scalar (UTF8.decode_replace _) =>
            apply IH; [simpl length in *; lia
                      |intros x Hx; apply Hb; simpl; tauto]
        | |- is_scalar _ => scalar_value
        end ].
Qed.

Lemma decoded_bytes_scalar (b : bytes) :
  Forall is_byte b -> Forall is_scalar (UTF8.decode_replace b).
Proof.
  intro H. apply (decode_replace_scalar_aux (length b)); [lia|].
  now apply Forall_forall.
Qed.

(** X8: decoding bytes with [errors='replace'] yields Unicode scalar
    values only: never a surrogate, never a value above 0x10FFFF. *)
Theorem decode_replace_scalar (b : bytes) :
  Forall is_byte b -> Forall is_scalar (UTF8.decode_replace b).
Proof. apply decoded_bytes_scalar. Qed.

Lemma decode_replace_scalar_witness :
  Forall is_scalar (UTF8.decode_replace [0xED; 0xA0; 0x80; 0xF4; 0x90; 0x41]).
Proof.
  apply decode_replace_scalar.
  repeat constructor; unfold is_byte; lia.
Defined.

(** ** UTF-8: encoding and decoding again *)

Lemma decode_1 (ch : Z) (r : bytes) :
  ch < 0x80 ->
  UTF8.decode_replace (ch :: r) = ch :: UTF8.decode_replace r.
Proof. intro H. cbn [UTF8.decode_replace]. now cmp_cases. Qed.

Lemma decode_2 (ch ch2 : Z) (r : bytes) :
  0xC2 <= ch < 0xE0 -> 0x80 <= ch2 <= 0xBF ->
  UTF8.decode_replace (ch :: ch2 :: r)
  = ((ch mod 32) * 64 + ch2 mod 64) :: UTF8.decode_replace r.
Proof.
  intros H1 H2. cbn [UTF8.decode_replace]. unfold UTF8.is_continuation.
  cmp_cases; now rewrite value2.
Qed.

Lemma decode_3 (ch ch2 ch3 : Z) (r : bytes) :
  0xE0 <= ch < 0xF0 -> 0x80 <= ch2 <= 0xBF -> 0x80 <= ch3 <= 0xBF ->
  (ch = 0xE0 -> 0xA0 <= ch2) -> (ch = 0xED -> ch2 < 0xA0) ->
  UTF8.decode_replace (ch :: ch2 :: ch3 :: r)
  = ((ch mod 16) * 4096 + (ch2 mod 64) * 64 + ch3 mod 64)
    :: UTF8.decode_replace r.
Proof.
  intros H1 H2 H3 H4 H5. cbn [UTF8.decode_replace].
  unfold UTF8.is_continuation.
  cmp_cases; now rewrite value3.
Qed.

Lemma decode_4 (ch ch2 ch3 ch4 : Z) (r : bytes) :
  0xF0 <= ch < 0xF5 -> 0x80 <= ch2 <= 0xBF -> 0x80 <= ch3 <= 0xBF ->
  0x80 <= ch4 <= 0xBF ->
  (ch = 0xF0 -> 0x90 <= ch2) -> (ch = 0xF4 -> ch2 < 0x90) ->
  UTF8.decode_replace (ch :: ch2 :: ch3 :: ch4 :: r)
  = ((ch mod 8) * 262144 + (ch2 mod 64) * 4096 + (ch3 mod 64) * 64
     + ch4 mod 64) :: UTF8.decode_replace r.
Proof.
  intros H1 H2 H3 H4 H5 H6. cbn [UTF8.decode_replace].
  unfold UTF8.is_continuation.
  cmp_cases; now rewrite value4.
Qed.

Ltac by_division := Z.div_mod_to_equations; lia.

Lemma decode_encode_char (c : Z) (bc r : bytes) :
  UTF8.encode_char c = Some bc ->
  Forall is_byte bc /\
  UTF8.decode_replace (bc ++ r) = c :: UTF8.decode_replace r.
Proof.
  unfold UTF8.encode_char. cmp_cases; intro Henc; try discriminate;
    apply Some_eq_inv in Henc; subst bc; cbv beta iota delta [app];
    rewrite ?shiftr_6, ?shiftr_12, ?shiftr_18, ?trail_byte.
  - split; [repeat constructor; unfold is_byte; lia|].
    now apply decode_1.
  - rewrite lead_byte2 by by_division.
    split; [repeat constructor; unfold is_byte; by_division|].
    rewrite decode_2 by by_division. f_equal. by_division.
  - rewrite lead_byte3 by by_division.
    split; [repeat constructor; unfold is_byte; by_division|].
    rewrite decode_3 by by_division. f_equal. by_division.
  - rewrite lead_byte3 by by_division.
    split; [repeat constructor; unfold is_byte; by_division|].
    rewrite decode_3 by by_division. f_equal. by_division.
  - rewrite lead_byte4 by by_division.
    split; [repeat constructor; unfold is_byte; by_division|].
    rewrite decode_4 by by_division. f_equal. by_division.
Qed.

Lemma encode_Some_scalar (c : Z) :
  is_scalar c <-> exists bc, UTF8.encode_char c = Some bc.
Proof.
  unfold is_scalar, UTF8.encode_char. split.
  - intro Hs. cmp_cases; eauto.
  - intros [bc Henc]. revert Henc. cmp_cases; intro Henc;
      try discriminate; lia.
Qed.

(** X9: what [str.encode()] returns is a string of bytes that decodes to
    the string it came from. *)
Theorem encode_decode_roundtrip (s : str) (b : bytes) :
  UTF8.encode s = Return b ->
  Forall is_byte b /\ UTF8.decode_replace b = s.
Proof.
  intro H. apply encode_Return in H. revert b H.
  induction s as [|c s IH]; intros b H; cbn [UTF8.encode_opt] in H.
  - injection H as <-. now split.
  - destruct (UTF8.encode_char c) as [bc|] eqn:Ec; [|discriminate].
    destruct (UTF8.encode_opt s) as [r|]; [|discriminate].
    injection H as <-. destruct (IH r eq_refl) as [Hr Hd].
    destruct (decode_encode_char c bc r Ec) as [Hbc Hdc].
    split; [now apply Forall_app|]. now rewrite Hdc, Hd.
Qed.

Lemma encode_decode_roundtrip_witness :
  Forall is_byte [0x41; 0xD0; 0x96; 0xE2; 0x82; 0xAC; 0xF0; 0x9F; 0x8C; 0x91]
  /\ UTF8.decode_replace
       [0x41; 0xD0; 0x96; 0xE2; 0x82; 0xAC; 0xF0; 0x9F; 0x8C; 0x91]
     = [0x41; 0x416; 0x20AC; 0x1F311].
Proof.
  apply (encode_decode_roundtrip [0x41; 0x416; 0x20AC; 0x1F311]).
  vm_compute. reflexivity.
Defined.

(** A string can be encoded exactly when its characters are scalar
    values. *)
Lemma encode_opt_scalar (s : str) :
  Forall is_scalar s <-> exists b, UTF8.encode_opt s = Some b.
Proof.
  induction s as [|c s IH]; cbn [UTF8.encode_opt].
  - split; [eauto|constructor].
  - split.
    + intro H. inversion H as [|? ? Hc Hs]; subst.
      apply encode_Some_scalar in Hc as [bc ->].
      apply IH in Hs as [r ->]. eauto.
    + intros [b H].
      destruct (UTF8.encode_char c) as [bc|] eqn:Ec; [|discriminate].
      destruct (UTF8.encode_opt s) as [r|] eqn:Es; [|discriminate].
      constructor; [apply encode_Some_scalar; eauto|apply IH; eauto].
Qed.

(** ** Payloads without surrogates *)

Lemma split_Forall (P : Z -> Prop) (sep : Z) (s : list Z) :
  Forall P s -> Forall (Forall P) (split sep s).
Proof.
  induction 1 as [|c s Hc Hs IH]; cbn [split]; [repeat constructor|].
  destruct (c =? sep); [constructor; [constructor|exact IH]|].
  destruct (split sep s) as [|x xs]; [repeat constructor; exact Hc|].
  inversion IH as [|? ? Hx Hxs]; subst.
  constructor; [now constructor|exact Hxs].
Qed.

Lemma split1_Forall (P : Z -> Prop) (sep : Z) (s : list Z) :
  Forall P s -> Forall (Forall P) (split1 sep s).
Proof.
  induction 1 as [|c s Hc Hs IH]; cbn [split1]; [repeat constructor|].
  destruct (c =? sep); [repeat constructor; exact Hs|].
  destruct (split1 sep s) as [|x xs]; [repeat constructor; exact Hc|].
  inversion IH as [|? ? Hx Hxs]; subst.
  constructor; [now constructor|exact Hxs].
Qed.

Lemma replace_plus_scalar (s : str) :
  Forall is_scalar s ->
  Forall is_scalar (replace UrlParse.plus UrlParse.space s).
Proof.
  intro H. unfold replace. apply Forall_map.
  eapply Forall_impl; [|exact H]. intros c Hc. cbv beta.
  destruct (c =? UrlParse.plus); [|exact Hc].
  unfold is_scalar, UrlParse.space. lia.
Qed.

Lemma hexval_range (c x : Z) : UrlParse.hexval c = Some x -> 0 <= x < 16.
Proof.
  unfold UrlParse.hexval. cmp_cases; intro Hx; try discriminate;
    apply Some_eq_inv in Hx; lia.
Qed.

Lemma hextobyte_range (item : bytes) (x : Z) :
  UrlParse.hextobyte item = Some x -> is_byte x.
Proof.
  unfold UrlParse.hextobyte. destruct item as [|a [|b r]]; try discriminate.
  destruct (UrlParse.hexval a) as [u|] eqn:Ea; [|discriminate].
  destruct (UrlParse.hexval b) as [v|] eqn:Eb; [|discriminate].
  intro H. apply Some_eq_inv in H. subst x.
  apply hexval_range in Ea, Eb. unfold is_byte. lia.
Qed.

Lemma Forall_skipn {A : Type} (P : A -> Prop) (n : nat) (l : list A) :
  Forall P l -> Forall P (skipn n l).
Proof.
  revert l; induction n as [|n IH]; intros l H; [exact H|].
  destruct l as [|x l]; [constructor|]. apply IH. now inversion H.
Qed.

Lemma unquote_to_bytes_range (s : str) :
  Forall is_byte s -> Forall is_byte (UrlParse.unquote_to_bytes s).
Proof.
  intro H. unfold UrlParse.unquote_to_bytes.
  destruct s as [|c s]; [constructor|].
  pose proof (split_Forall is_byte UrlParse.percent _ H) as HS.
  destruct (split UrlParse.percent (c :: s)) as [|bits0 [|item rest]];
    try exact H.
  inversion HS as [|? ? H0 Hrest]; subst.
  apply Forall_app. split; [exact H0|].
  apply Forall_flat_map. eapply Forall_impl; [|exact Hrest].
  intros it Hit. destruct (UrlParse.hextobyte it) as [x|] eqn:E.
  - constructor; [now apply (hextobyte_range it)|now apply Forall_skipn].
  - constructor; [unfold is_byte, UrlParse.percent; lia|exact Hit].
Qed.

Lemma is_ascii_byte (c : Z) : UrlParse.is_ascii c = true -> is_byte c.
Proof.
  unfold UrlParse.is_ascii, is_byte. intro H.
  apply andb_true_iff in H as [H1 H2]. apply Z.leb_le in H1, H2. lia.
Qed.

(** The runs of [_asciire.split] hold the characters of the string, and
    the runs tagged as ASCII hold ASCII characters only. *)
Lemma asciire_split_Forall (P : Z -> Prop) (s : str) :
  Forall P s ->
  Forall (fun br => Forall P (snd br) /\
                    Forall (fun c => UrlParse.is_ascii c = fst br) (snd br))
         (UrlParse.asciire_split s).
Proof.
  induction 1 as [|c s Hc Hs IH]; cbn [UrlParse.asciire_split];
    [constructor|].
  destruct (UrlParse.asciire_split s) as [|[b r] rest].
  - repeat constructor. exact Hc.
  - inversion IH as [|? ? [H1 H2] Hrest]; subst. cbn [fst snd] in *.
    destruct (Bool.eqb (UrlParse.is_ascii c) b) eqn:E.
    + apply eqb_prop in E. constructor; [|exact Hrest].
      cbn [fst snd]. split; constructor; assumption.
    + constructor; [|constructor; [now split|exact Hrest]].
      cbn [fst snd]. split; repeat constructor. exact Hc.
Qed.

Lemma unquote_scalar (s : str) :
  Forall is_scalar s -> Forall is_scalar (UrlParse.unquote s).
Proof.
  intro H. unfold UrlParse.unquote.
  destruct (negb (contains UrlParse.percent s)); [exact H|].
  apply Forall_flat_map.
  eapply Forall_impl; [|apply (asciire_split_Forall _ _ H)].
  intros [b r] [H1 H2]. cbn [fst snd] in *. destruct b; [|exact H1].
  apply decoded_bytes_scalar, unquote_to_bytes_range.
  eapply Forall_impl; [|exact H2]. apply is_ascii_byte.
Qed.

Lemma parse_field_scalar (f : str) :
  Forall is_scalar f -> Forall scalar_pair (UrlParse.parse_field f).
Proof.
  intro H. unfold UrlParse.parse_field. destruct f as [|c f]; [constructor|].
  pose proof (split1_Forall _ UrlParse.equals _ H) as HS.
  destruct (split1 UrlParse.equals (c :: f)) as [|n [|v [|w t]]];
    try constructor.
  - inversion HS as [|? ? Hn HS']; subst. inversion HS' as [|? ? Hv _]; subst.
    destruct v as [|d v]; repeat constructor; cbn [fst snd];
      now apply unquote_scalar, replace_plus_scalar.
Qed.

Lemma parse_qsl_scalar (qs : str) :
  Forall is_scalar qs -> Forall scalar_pair (UrlParse.parse_qsl qs).
Proof.
  intro H. rewrite parse_qsl_split. apply Forall_flat_map.
  eapply Forall_impl; [|apply (split_Forall _ _ _ H)].
  apply parse_field_scalar.
Qed.

Lemma keep_last_Forall (P : str * str -> Prop) (l : list (str * str)) :
  Forall P l -> Forall P (Spec.keep_last l).
Proof.
  induction 1 as [|kv l Hkv Hl IH]; cbn [Spec.keep_last]; [constructor|].
  destruct (Spec.has_key (fst kv) l); [exact IH|now constructor].
Qed.

Lemma Forall_filter_keep {A : Type} (P : A -> Prop) (f : A -> bool) (l : list A) :
  Forall P l -> Forall P (filter f l).
Proof.
  induction 1 as [|x l Hx Hl IH]; cbn [filter]; [constructor|].
  destruct (f x); [now constructor|exact IH].
Qed.

Lemma join_scalar (sep : str) (lines : list str) :
  Forall is_scalar sep -> Forall (Forall is_scalar) lines ->
  Forall is_scalar (join sep lines).
Proof.
  intros Hsep. induction 1 as [|x l Hx Hl IH]; cbn [join]; [constructor|].
  destruct l as [|y l]; [exact Hx|].
  apply Forall_app. split; [exact Hx|]. apply Forall_app. now split.
Qed.

Lemma check_string_scalar (l : list (str * str)) :
  Forall scalar_pair l -> Forall is_scalar (Spec.check_string l).
Proof.
  intro H. unfold Spec.check_string. apply join_scalar.
  - repeat constructor. unfold is_scalar. lia.
  - apply Forall_map.
    assert (Forall scalar_pair (Spec.sort_by_key l)) as HS.
    { eapply Permutation_Forall; [|exact H].
      apply Permutation_sym, sort_by_perm. }
    eapply Forall_impl; [|exact HS]. intros kv [Hk Hv].
    apply Forall_app. split; [exact Hk|].
    apply Forall_app. split; [|exact Hv].
    repeat constructor. unfold is_scalar. lia.
Qed.

(** X10: when neither the payload nor the secret holds a surrogate, the
    two [encode()] calls succeed, whatever the percent-escapes of the
    payload stand for; the only exception left is the [TypeError] of
    [compare_digest] on a [hash] value with a non-ASCII character. *)
Theorem no_surrogate_no_encode_error (init_data bot_token : str) :
  Forall is_scalar init_data -> Forall is_scalar bot_token ->
  (exists token_bytes check_bytes,
      UTF8.encode bot_token = Return token_bytes /\
      UTF8.encode (Spec.check_string (Spec.remaining_fields init_data))
        = Return check_bytes)
  /\ (fst (validate_init_data_run init_data bot_token) = [] \/
      fst (validate_init_data_run init_data bot_token)
        = [ValidationError TypeError]).
Proof.
  intros Hp Ht.
  apply encode_opt_scalar in Ht as [tb Htb].
  assert (Forall is_scalar (Spec.check_string (Spec.remaining_fields init_data)))
    as Hc.
  { apply check_string_scalar. unfold Spec.remaining_fields, Spec.without_hash.
    apply Forall_filter_keep, keep_last_Forall. now apply parse_qsl_scalar. }
  apply encode_opt_scalar in Hc as [cb Hcb].
  split.
  - exists tb, cb. unfold UTF8.encode. now rewrite Htb, Hcb.
  - rewrite validate_init_data_run_outcome.
    destruct (Spec.hash_field init_data) as [h|]; [|now left].
    rewrite Htb, Hcb. destruct (forallb UrlParse.is_ascii h); auto.
Qed.

Lemma no_surrogate_no_encode_error_witness :
  fst (validate_init_data_run (lit "a=%ED%A0%80&hash=%C3%A9") Example.secret) = [] \/
  fst (validate_init_data_run (lit "a=%ED%A0%80&hash=%C3%A9") Example.secret)
    = [ValidationError TypeError].
Proof.
  apply (no_surrogate_no_encode_error (lit "a=%ED%A0%80&hash=%C3%A9")
                                      Example.secret);
    apply encode_opt_scalar; eexists; vm_compute; reflexivity.
Defined.

(** ** Text without escapes *)

Lemma join_split (sep : Z) (s : list Z) : join [sep] (split sep s) = s.
Proof.
  induction s as [|c s IH]; [reflexivity|]. cbn [split].
  destruct (c =? sep) eqn:E.
  - apply Z.eqb_eq in E. subst c.
    pose proof (split_not_nil sep s) as Hne.
    destruct (split sep s) as [|x xs]; [contradiction|].
    cbn [join app] in *. now rewrite IH.
  - pose proof (split_not_nil sep s) as Hne.
    destruct (split sep s) as [|x xs]; [contradiction|].
    destruct xs as [|y ys]; cbn [join app] in *; now rewrite IH.
Qed.

Lemma join_flat_map (sep : Z) (x : list Z) (xs : list (list Z)) :
  x ++ flat_map (fun item => sep :: item) xs = join [sep] (x :: xs).
Proof.
  revert x; induction xs as [|y ys IH]; intro x.
  - apply app_nil_r.
  - cbn [flat_map].
    change (join [sep] (x :: y :: ys)) with (x ++ [sep] ++ join [sep] (y :: ys)).
    now rewrite <- IH.
Qed.

Lemma hexval_percent : UrlParse.hexval UrlParse.percent = None.
Proof. reflexivity. Qed.

(** The item behind a percent sign decides alone whether the sign starts
    an escape. *)
Lemma hextobyte_first_item (s : list Z) :
  UrlParse.hextobyte (hd [] (split UrlParse.percent s)) = UrlParse.hextobyte s.
Proof.
  destruct s as [|a [|b r]]; [reflexivity| |].
  - cbn [split]. destruct (a =? UrlParse.percent); reflexivity.
  - cbn [split].
    destruct (a =? UrlParse.percent) eqn:Ea.
    + apply Z.eqb_eq in Ea. subst a. cbn [hd UrlParse.hextobyte].
      now rewrite hexval_percent.
    + destruct (b =? UrlParse.percent) eqn:Eb.
      * apply Z.eqb_eq in Eb. subst b. cbn [hd UrlParse.hextobyte].
        rewrite hexval_percent. now destruct (UrlParse.hexval a).
      * pose proof (split_not_nil UrlParse.percent r) as Hne.
        destruct (split UrlParse.percent r) as [|x xs]; [contradiction|].
        reflexivity.
Qed.

Lemma no_escape_items (s : str) :
  no_escape s = true ->
  Forall (fun item => UrlParse.hextobyte item = None)
         (tl (split UrlParse.percent s)).
Proof.
  induction s as [|c s IH]; [constructor|].
  cbn [no_escape split]. intro H. apply andb_true_iff in H as [H1 H2].
  specialize (IH H2).
  pose proof (split_not_nil UrlParse.percent s) as Hne.
  pose proof (hextobyte_first_item s) as Hf.
  destruct (c =? UrlParse.percent).
  - cbn [tl]. destruct (split UrlParse.percent s) as [|x xs]; [contradiction|].
    cbn [hd tl] in *. constructor; [|exact IH].
    rewrite Hf. now destruct (UrlParse.hextobyte s).
  - destruct (split UrlParse.percent s) as [|x xs]; [contradiction|].
    exact IH.
Qed.

Lemma unquote_to_bytes_no_escape (s : str) :
  no_escape s = true -> UrlParse.unquote_to_bytes s = s.
Proof.
  intro H. unfold UrlParse.unquote_to_bytes. destruct s as [|c s]; [reflexivity|].
  pose proof (no_escape_items _ H) as HI.
  pose proof (join_split UrlParse.percent (c :: s)) as HJ.
  destruct (split UrlParse.percent (c :: s)) as [|bits0 [|item rest]];
    try reflexivity.
  cbn [tl] in HI. rewrite <- HJ. rewrite <- join_flat_map. f_equal.
  rewrite !flat_map_concat_map. f_equal. apply map_ext_in. intros it Hit.
  rewrite Forall_forall in HI. now rewrite (HI it Hit).
Qed.

Lemma decode_replace_ascii (s : bytes) :
  forallb UrlParse.is_ascii s = true -> UTF8.decode_replace s = s.
Proof.
  induction s as [|c s IH]; [reflexivity|]. cbn [forallb]. intro H.
  apply andb_true_iff in H as [Hc Hs].
  unfold UrlParse.is_ascii in Hc. apply andb_true_iff in Hc as [H1 H2].
  apply Z.leb_le in H2. rewrite decode_1 by lia. now rewrite IH.
Qed.

Lemma asciire_split_ascii (c : Z) (s : str) :
  forallb UrlParse.is_ascii (c :: s) = true ->
  UrlParse.asciire_split (c :: s) = [(true, c :: s)].
Proof.
  revert c; induction s as [|d s IH]; intros c H; cbn [forallb] in H;
    apply andb_true_iff in H as [Hc Hs].
  - cbn [UrlParse.asciire_split]. now rewrite Hc.
  - cbn [UrlParse.asciire_split] in *. rewrite (IH d Hs), Hc. reflexivity.
Qed.

Lemma unquote_literal (s : str) :
  forallb UrlParse.is_ascii s = true -> no_escape s = true ->
  UrlParse.unquote s = s.
Proof.
  intros Ha Hn. unfold UrlParse.unquote.
  destruct (negb (contains UrlParse.percent s)); [reflexivity|].
  destruct s as [|c s]; [reflexivity|].
  rewrite (asciire_split_ascii c s Ha). cbn [flat_map].
  rewrite app_nil_r, unquote_to_bytes_no_escape by exact Hn.
  now apply decode_replace_ascii.
Qed.

(** X11: a percent sign that is not followed by two hexadecimal digits is
    no error and is kept: a string of ASCII characters in which no
    percent sign starts an escape is unquoted to itself. *)
Theorem unquote_no_escape (s : str) :
  forallb UrlParse.is_ascii s = true -> no_escape s = true ->
  UrlParse.unquote s = s.
Proof. apply unquote_literal. Qed.

Lemma unquote_no_escape_witness :
  UrlParse.unquote (lit "100%_off%7&50%%2") = lit "100%_off%7&50%%2".
Proof. apply unquote_no_escape; vm_compute; reflexivity. Defined.

(** X12: a field [name=value] of ASCII characters without plus sign and
    without escape, with no [=] in the name and a value that is not
    empty, gives the pair of the name and the value as they stand. *)
Theorem parse_field_literal (name value : str) :
  ~ In UrlParse.equals name -> value <> [] ->
  forallb UrlParse.is_ascii (name ++ value) = true ->
  ~ In UrlParse.plus (name ++ value) ->
  no_escape name = true -> no_escape value = true ->
  UrlParse.parse_field (name ++ UrlParse.equals :: value) = [(name, value)].
Proof.
  intros Heq Hv Ha Hp Hn1 Hn2. unfold UrlParse.parse_field.
  rewrite split1_at_sep by exact Heq.
  rewrite forallb_app in Ha. apply andb_true_iff in Ha as [Ha1 Ha2].
  assert (forall s, ~ In UrlParse.plus s ->
                    replace UrlParse.plus UrlParse.space s = s) as Hr.
  { intros s Hs. unfold replace. rewrite <- (map_id s) at 2.
    apply map_ext_in. intros c Hc.
    destruct (c =? UrlParse.plus) eqn:E; [|reflexivity].
    apply Z.eqb_eq in E. subst. contradiction. }
  rewrite !Hr by (intro Hin; apply Hp, in_or_app; auto).
  rewrite !unquote_literal by assumption.
  destruct (name ++ UrlParse.equals :: value) eqn:E;
    [now destruct name|].
  destruct value; [contradiction|reflexivity].
Qed.

Lemma parse_field_literal_witness :
  UrlParse.parse_field (lit "rate" ++ UrlParse.equals :: lit "100%")
  = [(lit "rate", lit "100%")].
Proof.
  apply parse_field_literal; try (vm_compute; reflexivity);
    try discriminate; vm_compute; intuition discriminate.
Defined.

(** ** The final comparison, in every case *)

(** X13: [compare_digest] on two strings answers true exactly when they
    are the same string of ASCII characters, raises [TypeError] exactly
    when one of them has a non-ASCII character, and raises nothing else. *)
Theorem compare_digest_cases (a b : str) :
  (compare_digest a b = Return true <->
   a = b /\ forallb UrlParse.is_ascii a = true)
  /\ (compare_digest a b = Raise TypeError <->
      forallb UrlParse.is_ascii a && forallb UrlParse.is_ascii b = false)
  /\ (compare_digest a b = Return false <->
      a <> b /\ forallb UrlParse.is_ascii a && forallb UrlParse.is_ascii b = true).
Proof.
  split; [apply compare_digest_true_iff|].
  unfold compare_digest.
  destruct (forallb UrlParse.is_ascii a && forallb UrlParse.is_ascii b).
  - split; [split; discriminate|]. split.
    + intro H. split; [|reflexivity]. intro E.
      apply tscmp_true_iff in E. congruence.
    + intros [H _]. destruct (tscmp a b) eqn:E; [|reflexivity].
      apply tscmp_true_iff in E. contradiction.
  - split; [split; reflexivity|]. split; [discriminate|].
    intros [_ H]. discriminate.
Qed.

(** ** SHA-256: the padded message *)

Lemma be_bytes_length (n : nat) (x : Z) : length (SHA256.be_bytes n x) = n.
Proof.
  unfold SHA256.be_bytes. now rewrite length_map, length_rev, length_seq.
Qed.

Lemma blocks_concat (n : nat) (l : bytes) :
  length l = (64 * n)%nat ->
  concat (SHA256.blocks n l) = l /\
  Forall (fun b => length b = 64%nat) (SHA256.blocks n l).
Proof.
  revert l; induction n as [|n IH]; intros l H; cbn [SHA256.blocks concat].
  - destruct l; [now split|simpl in H; lia].
  - destruct (IH (skipn 64 l)) as [H1 H2]; [rewrite length_skipn; lia|].
    rewrite H1. split; [apply firstn_skipn|].
    constructor; [|exact H2]. rewrite length_firstn. lia.
Qed.

(** X14: padding makes the message a whole number of 64-byte blocks:
    the blocks SHA-256 compresses are all 64 bytes long, and together
    they are the message, the byte 0x80, zero bytes and the bit length on
    eight bytes; nothing is cut off. *)
Theorem pad_whole_blocks (msg : bytes) :
  let p := SHA256.pad msg in
  let n := (length p / 64)%nat in
  length p = (64 * n)%nat
  /\ firstn (length msg) p = msg
  /\ nth (length msg) p 0 = 0x80
  /\ concat (SHA256.blocks n p) = p
  /\ Forall (fun b => length b = 64%nat) (SHA256.blocks n p).
Proof.
  intros p n.
  assert (length p = (64 * n)%nat) as Hlen.
  { subst n p. unfold SHA256.pad.
    rewrite !length_app, repeat_length, be_bytes_length. cbn [length].
    set (l := length msg).
    set (k := Z.to_nat ((55 - Z.of_nat l) mod 64)).
    assert (Z.of_nat k = (55 - Z.of_nat l) mod 64) as Hk
      by (subst k; apply Z2Nat.id; apply Z.mod_pos_bound; lia).
    assert ((l + (1 + (k + 8))) mod 64 = 0)%nat as Hm.
    { apply Nat2Z.inj. rewrite Nat2Z.inj_mod, !Nat2Z.inj_add, Hk.
      change (Z.of_nat 64) with 64. change (Z.of_nat 8) with 8.
      change (Z.of_nat 1) with 1. change (Z.of_nat 0) with 0.
      Z.div_mod_to_equations; lia. }
    pose proof (Nat.div_mod (l + (1 + (k + 8))) 64) as Hd. lia. }
  split; [exact Hlen|].
  split.
  { subst p. unfold SHA256.pad.
    now rewrite firstn_app, firstn_all, Nat.sub_diag, app_nil_r. }
  split.
  { subst p. unfold SHA256.pad.
    rewrite app_nth2 by lia. now rewrite Nat.sub_diag. }
  now apply blocks_concat.
Qed.

(** * Flipped characters *)

(** *** The hexadecimal rendering can be read back *)




(** *** The encoding tells strings apart *)



(** *** The characters of the check-string *)







(** *** A changed check-string under the same signature *)


(** *** A field of plain characters *)






(** *** The fields around the changed one *)















